(** * LXD storage: volumes, mount-scoped tasks and pool resolution

    A shallow embedding of [lxd/storage/drivers/volume.go] (package
    [drivers]) and of the pool resolver of package [storage]
    ([CreatePool], [GetPoolByName], [GetPoolByInstanceName],
    [volIDFuncMake]), with the properties of the design document stated
    and proved about the embedded code.

    Conventions of the embedding:
    - a Go [string] is a [string] (a sequence of bytes); a string-typed
      enum ([VolumeType], [ContentType]) stays a string, its constants
      are definitions;
    - a [map[string]string] that may be [nil] is an
      [option (gmap string string)], [None] being the nil map;
    - a Go [error] is an [option error], [None] being [nil]; a function
      that returns a value or fails, and whose callers read the value
      only when the error is [nil], returns a [result];
    - the code of [volume.go] calls the driver, the operating system and
      the lock registry: it is a program ([prog]) over those calls, run
      alone by [run] and side by side with other goroutines by
      [sched_step];
    - the resolver reads a global, writes through a pointer and calls the
      catalog and the driver loader: it is a function on the process
      state ([M]);
    - every outside call is recorded, with its arguments, in the state's
      [log], so that statements can say which calls were made;
    - outside calls are assumed to return; only the caller-supplied task
      of [MountTask] may panic, and it acts on the outside world only (it
      takes no lock of the registry). *)

From stdpp Require Import base strings list gmap sets relations.

Local Open Scope string_scope.

(** ** Go's [strings] package (the functions the code uses) *)
Module GoStrings.

(** [strings.HasPrefix s prefix]. *)
Fixpoint HasPrefix (s prefix : string) : bool :=
  match prefix, s with
  | EmptyString, _ => true
  | String c p', String d s' => if decide (c = d) then HasPrefix s' p' else false
  | String _ _, EmptyString => false
  end.

(** The slice [s[n:]]. *)
Fixpoint slice_from (n : nat) (s : string) : string :=
  match n, s with
  | S n', String _ s' => slice_from n' s'
  | _, _ => s
  end.

(** [strings.Cut s sep]: the text before and after the first occurrence
    of [sep] in [s], or [None] when [sep] does not occur. *)
Fixpoint Cut (s sep : string) : option (string * string) :=
  if HasPrefix s sep then Some ("", slice_from (String.length sep) s)
  else match s with
       | EmptyString => None
       | String c s' =>
           match Cut s' sep with
           | Some (before, after) => Some (String c before, after)
           | None => None
           end
       end.

(** [strings.Contains s substr]. *)
Definition Contains (s substr : string) : bool :=
  match Cut s substr with Some _ => true | None => false end.

(** [strings.SplitN s sep n] for a non-empty separator and [n >= 0]: at
    most [n] pieces, the last one being the unsplit remainder. *)
Fixpoint SplitN (s sep : string) (n : nat) : list string :=
  match n with
  | 0 => []
  | S n' =>
      match n' with
      | 0 => [s]
      | S _ =>
          match Cut s sep with
          | None => [s]
          | Some (before, after) => before :: SplitN after sep n'
          end
      end
  end.

End GoStrings.

(** ** Package [shared]: the snapshot naming convention *)
Module shared.

(** Modelled from the spec: [shared.SnapshotDelimiter] is not part of the
    sources at hand; a snapshot volume is named
    [<parent>/<snapshot-suffix>]. *)
Definition SnapshotDelimiter : string := "/".

(** Modelled from the spec: [shared.IsSnapshot] is not part of the sources
    at hand; it is a pure predicate over the shape of the name, true when
    the name has the form [<parent>/<snapshot-suffix>]. *)
Definition IsSnapshot (name : string) : bool :=
  GoStrings.Contains name SnapshotDelimiter.

(** Modelled from the spec: [shared.ContainerGetParentAndSnapshotName] is
    not part of the sources at hand; it determines whether the name
    encodes a snapshot and yields the parent and the suffix. *)
Definition ContainerGetParentAndSnapshotName (name : string)
  : string * string * bool :=
  match GoStrings.SplitN name SnapshotDelimiter 2 with
  | [parent; snap] => (parent, snap, true)
  | _ => (name, "", false)
  end.

End shared.

(** ** Errors and results shared by the two packages *)

(** A Go [error] value.  The two sentinels are the ones the code compares
    against or returns by name; [Errorf] is an error built from a message
    ([fmt.Errorf]) and stands for every other error as well. *)
Inductive error : Type :=
| ErrNilValue
| ErrNoSuchObject
| Errorf (msg : string).

#[global] Instance error_eq_dec : EqDecision error.
Proof. solve_decision. Defined.

(** The result of a call that yields a value or fails. *)
Inductive result (A : Type) : Type :=
| Ok (a : A)
| Err (e : error).
Arguments Ok {A} a.
Arguments Err {A} e.

(** How a call of caller-supplied code ends: it returns its [error]
    (possibly [nil]) or it panics. *)
Inductive outcome : Type :=
| Returned (err : option error)
| Panicked (v : string).

(** ** Package [drivers] *)
Module drivers.

Definition VolumeType : Type := string.
Definition VolumeTypeImage : VolumeType := "images".
Definition VolumeTypeCustom : VolumeType := "custom".
Definition VolumeTypeContainer : VolumeType := "containers".
Definition VolumeTypeVM : VolumeType := "virtual-machines".

Definition ContentType : Type := string.
Definition ContentTypeFS : ContentType := "fs".
Definition ContentTypeBlock : ContentType := "block".

(** [*operations.Operation]: [nil] or an opaque handle, passed through. *)
Definition Operation : Type := option nat.

(** [os.FileMode], permission bits only. *)
Definition FileMode : Type := N.
Definition mode_0711 : FileMode := (7 * 64 + 1 * 8 + 1)%N.
Definition mode_0100 : FileMode := (1 * 64)%N.

(** The [Driver] interface, as far as [Volume] calls it.  A method acts on
    the state [W] of the outside world (the storage back end). *)
Record Driver (W : Type) : Type := {
  MountVolume :
    VolumeType → string → Operation → W → (bool * option error) * W;
  MountVolumeSnapshot :
    VolumeType → string → string → Operation → W → (bool * option error) * W;
  UnmountVolume :
    VolumeType → string → Operation → W → (bool * option error) * W;
  UnmountVolumeSnapshot :
    VolumeType → string → string → Operation → W → (bool * option error) * W;
  VolumeSnapshots :
    VolumeType → string → Operation → W → (list string * option error) * W;
}.
Arguments MountVolume {W} _ _ _ _ _.
Arguments MountVolumeSnapshot {W} _ _ _ _ _ _.
Arguments UnmountVolume {W} _ _ _ _ _.
Arguments UnmountVolumeSnapshot {W} _ _ _ _ _ _.
Arguments VolumeSnapshots {W} _ _ _ _ _.

(** What the package takes from its surroundings: the mount-path helper
    of [utils.go] (a pure function of pool, type and name) and the two
    [os] calls of [CreateMountPath]. *)
Class Env (W : Type) : Type := {
  GetVolumeMountPath : string → VolumeType → string → string;
  os_MkdirAll : string → FileMode → W → option error * W;
  os_Chmod : string → FileMode → W → option error * W;
}.

(** [Volume]. *)
Record Volume (W : Type) : Type := {
  name : string;
  pool : string;
  volType : VolumeType;
  contentType : ContentType;
  config : option (gmap string string);
  driver : Driver W;
}.
Arguments name {W} _.
Arguments pool {W} _.
Arguments volType {W} _.
Arguments contentType {W} _.
Arguments config {W} _.
Arguments driver {W} _.

(** The task handed to [MountTask]: caller code acting on the world. *)
Definition Task (W : Type) : Type := string → Operation → W → outcome * W.

(** *** Programs over outside calls and named locks *)

(** A call that leaves the package. *)
Inductive call : Type :=
| CMountVolume (t : VolumeType) (volName : string) (op : Operation)
| CMountVolumeSnapshot (t : VolumeType) (parent snap : string) (op : Operation)
| CUnmountVolume (t : VolumeType) (volName : string) (op : Operation)
| CUnmountVolumeSnapshot (t : VolumeType) (parent snap : string) (op : Operation)
| CVolumeSnapshots (t : VolumeType) (volName : string) (op : Operation)
| CTask (mountPath : string) (op : Operation)
| CMkdirAll (path : string) (perm : FileMode)
| CChmod (path : string) (mode : FileMode).

(** What such a call answered. *)
Inductive reply : Type :=
| RMount (r : bool * option error)
| RNames (r : list string * option error)
| RTask (o : outcome)
| RErr (e : option error).

(** A program: it returns, takes or releases a named lock of the lock
    registry, or makes an outside call and goes on with the answer. *)
Inductive prog (W R : Type) : Type :=
| Ret (r : R)
| Lock (id : string) (k : prog W R)
| Unlock (id : string) (k : prog W R)
| Ext (A : Type) (c : call) (enc : A → reply) (f : W → A * W) (k : A → prog W R).
Arguments Ret {W R} r.
Arguments Lock {W R} id k.
Arguments Unlock {W R} id k.
Arguments Ext {W R A} c enc f k.

Fixpoint bind {W R S : Type} (p : prog W R) (g : R → prog W S) : prog W S :=
  match p with
  | Ret r => g r
  | Lock id k => Lock id (bind k g)
  | Unlock id k => Unlock id (bind k g)
  | Ext c enc f k => Ext c enc f (λ a, bind (k a) g)
  end.

#[global] Instance prog_ret {W} : MRet (prog W) := λ _ r, Ret r.
#[global] Instance prog_bind {W} : MBind (prog W) := λ _ _ g p, bind p g.

(** The process state a program runs in: the outside world, the names
    the lock registry currently holds, and the record of the outside
    calls made so far, oldest first. *)
Record state (W : Type) : Type := {
  ext : W;
  held : gset string;
  log : list (call * reply);
}.
Arguments ext {W} _.
Arguments held {W} _.
Arguments log {W} _.
Arguments Build_state {W} _ _ _.

(** Modelled from the spec: the lock registry ([lock] of the package) is
    not part of the sources at hand; it is a process-wide table of named
    mutexes, [lock id] blocks until the name is free and hands back the
    function that frees it.

    One step of a program.  [None]: the program has returned, or it waits
    for a lock another holder has. *)
Definition thread_step {W R} (p : prog W R) (s : state W)
  : option (prog W R * state W) :=
  match p with
  | Ret _ => None
  | Lock id k =>
      if decide (id ∈ held s) then None
      else Some (k, Build_state (ext s) ({[id]} ∪ held s) (log s))
  | Unlock id k => Some (k, Build_state (ext s) (held s ∖ {[id]}) (log s))
  | Ext c enc f k =>
      let '(a, w) := f (ext s) in
      Some (k a, Build_state w (held s) (log s ++ [(c, enc a)]))
  end.

(** A program run alone to its end.  [None]: it blocks on a lock that is
    already held. *)
Fixpoint run {W R} (p : prog W R) (s : state W) : option (R * state W) :=
  match p with
  | Ret r => Some (r, s)
  | Lock id k =>
      if decide (id ∈ held s) then None
      else run k (Build_state (ext s) ({[id]} ∪ held s) (log s))
  | Unlock id k => run k (Build_state (ext s) (held s ∖ {[id]}) (log s))
  | Ext c enc f k =>
      let '(a, w) := f (ext s) in
      run (k a) (Build_state w (held s) (log s ++ [(c, enc a)]))
  end.

(** Goroutines sharing the process state. *)
Record machine (W R : Type) : Type := {
  threads : list (prog W R);
  shared_state : state W;
}.
Arguments threads {W R} _.
Arguments shared_state {W R} _.
Arguments Build_machine {W R} _ _.

(** Goroutine [i] makes one step. *)
Definition sched_step {W R} (i : nat) (m : machine W R) : option (machine W R) :=
  match threads m !! i with
  | None => None
  | Some p =>
      match thread_step p (shared_state m) with
      | None => None
      | Some (p', s') => Some (Build_machine (<[i := p']> (threads m)) s')
      end
  end.

Definition step {W R} (m m' : machine W R) : Prop :=
  ∃ i, sched_step i m = Some m'.

(** The goroutines step in the order the schedule gives. *)
Fixpoint run_schedule {W R} (sched : list nat) (m : machine W R)
  : option (machine W R) :=
  match sched with
  | [] => Some m
  | i :: rest =>
      match sched_step i m with
      | None => None
      | Some m' => run_schedule rest m'
      end
  end.

(** The outside call a program is about to make, if any. *)
Definition next_call {W R} (p : prog W R) : option call :=
  match p with
  | Ext c _ _ _ => Some c
  | _ => None
  end.

(** A Go function whose body registers deferred calls: the body yields
    them in the order of registration, with what it returns; they run
    last registered first, then the function returns. *)
Fixpoint run_deferred {W} (ds : list (prog W unit)) : prog W unit :=
  match ds with
  | [] => Ret tt
  | d :: rest => bind d (λ _, run_deferred rest)
  end.

Definition with_defers {W R} (body : prog W (list (prog W unit) * R)) : prog W R :=
  bind body (λ '(ds, r), bind (run_deferred (reverse ds)) (λ _, Ret r)).

Definition lock {W} (lockID : string) : prog W unit := Lock lockID (Ret tt).
Definition unlock {W} (lockID : string) : prog W unit := Unlock lockID (Ret tt).

(** *** [volume.go] *)
Section Volume.
Context {W : Type} `{!Env W}.

Definition NewVolume (driver : Driver W) (poolName : string)
    (volType : VolumeType) (contentType : ContentType) (volName : string)
    (volConfig : option (gmap string string)) : Volume W :=
  {| name := volName;
     pool := poolName;
     volType := volType;
     contentType := contentType;
     config := volConfig;
     driver := driver |}.

(** Modelled from the spec: [GetSnapshotVolumeName] ([utils.go]) is not
    part of the sources at hand; it joins the parent name and the
    snapshot suffix by the fixed convention [<parent>/<snapshot-suffix>]. *)
Definition GetSnapshotVolumeName (parentName snapshotName : string) : string :=
  parentName +:+ shared.SnapshotDelimiter +:+ snapshotName.

Definition IsSnapshot (v : Volume W) : bool :=
  shared.IsSnapshot (name v).

(** On failure the code returns the zero [Volume] with the error; the
    zero value is not represented. *)
Definition NewSnapshot (v : Volume W) (snapshotName : string)
  : result (Volume W) :=
  if IsSnapshot v then
    Err (Errorf "Cannot create a snapshot volume from a snapshot")
  else
    let fullSnapName := GetSnapshotVolumeName (name v) snapshotName in
    Ok (NewVolume (driver v) (pool v) (volType v) (contentType v)
          fullSnapName (config v)).

Definition MountPath (v : Volume W) : string :=
  GetVolumeMountPath (pool v) (volType v) (name v).

Definition call_MkdirAll (path : string) (perm : FileMode)
  : prog W (option error) :=
  Ext (CMkdirAll path perm) RErr (os_MkdirAll path perm) Ret.

Definition call_Chmod (path : string) (mode : FileMode)
  : prog W (option error) :=
  Ext (CChmod path mode) RErr (os_Chmod path mode) Ret.

Definition CreateMountPath (v : Volume W) : prog W (option error) :=
  let volPath := MountPath v in
  err ← call_MkdirAll volPath mode_0711;
  match err with
  | Some e => Ret (Some e)
  | None =>
      if bool_decide (volType v ≠ VolumeTypeCustom)
         && bool_decide (volType v ≠ VolumeTypeImage)
      then
        err ← call_Chmod volPath mode_0100;
        match err with
        | Some e => Ret (Some e)
        | None => Ret None
        end
      else Ret None
  end.

Definition call_MountVolume (d : Driver W) (t : VolumeType) (volName : string)
    (op : Operation) : prog W (bool * option error) :=
  Ext (CMountVolume t volName op) RMount (MountVolume d t volName op) Ret.

Definition call_MountVolumeSnapshot (d : Driver W) (t : VolumeType)
    (parent snap : string) (op : Operation) : prog W (bool * option error) :=
  Ext (CMountVolumeSnapshot t parent snap op) RMount
      (MountVolumeSnapshot d t parent snap op) Ret.

Definition call_UnmountVolume (d : Driver W) (t : VolumeType) (volName : string)
    (op : Operation) : prog W (bool * option error) :=
  Ext (CUnmountVolume t volName op) RMount (UnmountVolume d t volName op) Ret.

Definition call_UnmountVolumeSnapshot (d : Driver W) (t : VolumeType)
    (parent snap : string) (op : Operation) : prog W (bool * option error) :=
  Ext (CUnmountVolumeSnapshot t parent snap op) RMount
      (UnmountVolumeSnapshot d t parent snap op) Ret.

Definition call_VolumeSnapshots (d : Driver W) (t : VolumeType)
    (volName : string) (op : Operation) : prog W (list string * option error) :=
  Ext (CVolumeSnapshots t volName op) RNames (VolumeSnapshots d t volName op) Ret.

Definition call_task (task : Task W) (mountPath : string) (op : Operation)
  : prog W outcome :=
  Ext (CTask mountPath op) RTask (task mountPath op) Ret.

(** [fmt.Sprintf("mount/%s/%s", v.volType, v.name)]. *)
Definition mountLockID (v : Volume W) : string :=
  "mount/" +:+ volType v +:+ "/" +:+ name v.

(** [fmt.Sprintf("umount/%s/%s", v.volType, v.name)]. *)
Definition umountLockID (v : Volume W) : string :=
  "umount/" +:+ volType v +:+ "/" +:+ name v.

(** The body of [MountTask]: the deferred calls it registered and what it
    returns. *)
Definition MountTask_body (v : Volume W) (task : Task W) (op : Operation)
  : prog W (list (prog W unit) * outcome) :=
  let '(parentName, snapName, isSnap) :=
    shared.ContainerGetParentAndSnapshotName (name v) in
  if (isSnap : bool) then
    lock (mountLockID v);;
    '(ourMount, err) ←
      call_MountVolumeSnapshot (driver v) (volType v) parentName snapName op;
    match err with
    | Some e =>
        unlock (mountLockID v);;
        Ret ([], Returned (Some e))
    | None =>
        unlock (mountLockID v);;
        let deferred :=
          if (ourMount : bool) then
            [ lock (umountLockID v);;
              call_UnmountVolumeSnapshot (driver v) (volType v)
                parentName snapName op;;
              unlock (umountLockID v) ]
          else [] in
        o ← call_task task (MountPath v) op;
        Ret (deferred, o)
    end
  else
    lock (mountLockID v);;
    '(ourMount, err) ← call_MountVolume (driver v) (volType v) (name v) op;
    match err with
    | Some e =>
        unlock (mountLockID v);;
        Ret ([], Returned (Some e))
    | None =>
        unlock (mountLockID v);;
        let deferred :=
          if (ourMount : bool) then
            [ lock (umountLockID v);;
              call_UnmountVolume (driver v) (volType v) (name v) op;;
              unlock (umountLockID v) ]
          else [] in
        o ← call_task task (MountPath v) op;
        Ret (deferred, o)
    end.

Definition MountTask (v : Volume W) (task : Task W) (op : Operation)
  : prog W outcome :=
  with_defers (MountTask_body v task op).

(** The loop of [Snapshots] over the names the driver listed. *)
Fixpoint Snapshots_loop (v : Volume W) (snapshots : list string)
    (snapVols : list (Volume W)) : result (list (Volume W)) :=
  match snapshots with
  | [] => Ok snapVols
  | snapName :: rest =>
      match NewSnapshot v snapName with
      | Err e => Err e
      | Ok snapshot => Snapshots_loop v rest (snapVols ++ [snapshot])
      end
  end.

Definition Snapshots (v : Volume W) (op : Operation)
  : prog W (result (list (Volume W))) :=
  if IsSnapshot v then Ret (Err (Errorf "Volume is a snapshot"))
  else
    '(snapshots, err) ← call_VolumeSnapshots (driver v) (volType v) (name v) op;
    match err with
    | Some e => Ret (Err e)
    | None => Ret (Snapshots_loop v snapshots [])
    end.

End Volume.

(** *** Vocabulary of the statements about [MountTask] *)
Section MountVocabulary.
Context {W : Type}.

(** The driver's mount operation [MountTask] uses for [v]: the snapshot
    variant when the name encodes a snapshot. *)
Definition mount_op (v : Volume W) (op : Operation)
  : call * (W → (bool * option error) * W) :=
  let '(parentName, snapName, isSnap) :=
    shared.ContainerGetParentAndSnapshotName (name v) in
  if (isSnap : bool) then
    (CMountVolumeSnapshot (volType v) parentName snapName op,
     MountVolumeSnapshot (driver v) (volType v) parentName snapName op)
  else
    (CMountVolume (volType v) (name v) op,
     MountVolume (driver v) (volType v) (name v) op).

(** Likewise the unmount operation of the compensating action. *)
Definition unmount_op (v : Volume W) (op : Operation)
  : call * (W → (bool * option error) * W) :=
  let '(parentName, snapName, isSnap) :=
    shared.ContainerGetParentAndSnapshotName (name v) in
  if (isSnap : bool) then
    (CUnmountVolumeSnapshot (volType v) parentName snapName op,
     UnmountVolumeSnapshot (driver v) (volType v) parentName snapName op)
  else
    (CUnmountVolume (volType v) (name v) op,
     UnmountVolume (driver v) (volType v) (name v) op).

(** The compensating action: the unmount call under the unmount lock. *)
Definition compensate (v : Volume W) (op : Operation) : prog W unit :=
  lock (umountLockID v);;
  Ext (unmount_op v op).1 RMount (unmount_op v op).2 Ret;;
  unlock (umountLockID v).

(** The lock identifiers of a (volume type, volume name) pair. *)
Definition mount_lock (t : VolumeType) (volName : string) : string :=
  "mount/" +:+ t +:+ "/" +:+ volName.

Definition umount_lock (t : VolumeType) (volName : string) : string :=
  "umount/" +:+ t +:+ "/" +:+ volName.

(** The lock a driver call is to be made under: a mount decision for a
    volume under the pair's mount lock, an unmount decision under its
    unmount lock. *)
Definition guard (c : call) : option string :=
  match c with
  | CMountVolume t n _ => Some (mount_lock t n)
  | CMountVolumeSnapshot t p s _ => Some (mount_lock t (GetSnapshotVolumeName p s))
  | CUnmountVolume t n _ => Some (umount_lock t n)
  | CUnmountVolumeSnapshot t p s _ => Some (umount_lock t (GetSnapshotVolumeName p s))
  | _ => None
  end.

(** [disciplined H p]: holding exactly the locks [H] it took, [p] only
    releases locks it holds and makes every guarded call with the
    guarding lock held. *)
Inductive disciplined {R : Type} : gset string → prog W R → Prop :=
| disciplined_ret H r :
    disciplined H (Ret r)
| disciplined_lock H id k :
    disciplined ({[id]} ∪ H) k →
    disciplined H (Lock id k)
| disciplined_unlock H id k :
    id ∈ H →
    disciplined (H ∖ {[id]}) k →
    disciplined H (Unlock id k)
| disciplined_ext H A c (enc : A → reply) f k :
    (∀ id, guard c = Some id → id ∈ H) →
    (∀ a, disciplined H (k a)) →
    disciplined H (Ext c enc f k).

(** Every goroutine keeps the discipline, with lock sets that are
    pairwise disjoint and are held in the registry. *)
Definition lock_invariant {R : Type} (m : machine W R) : Prop :=
  ∃ Hs : list (gset string),
    Forall2 disciplined Hs (threads m)
    ∧ (∀ i j Hi Hj, i ≠ j → Hs !! i = Some Hi → Hs !! j = Some Hj → Hi ## Hj)
    ∧ (∀ i Hi, Hs !! i = Some Hi → Hi ⊆ held (shared_state m)).

(** The call each goroutine is about to make. *)
Definition next_calls {R : Type} (m : machine W R) : list (option call) :=
  next_call <$> threads m.

End MountVocabulary.

(** *** Vocabulary of further statements *)
Section MoreVocabulary.
Context {W : Type}.

(** [orderly H p]: holding exactly the locks [H], [p] takes a lock only
    when it holds none, releases only locks it holds, and returns holding
    none. *)
Inductive orderly {R : Type} : gset string → prog W R → Prop :=
| orderly_ret r :
    orderly ∅ (Ret r)
| orderly_lock id k :
    orderly {[id]} k →
    orderly ∅ (Lock id k)
| orderly_unlock H id k :
    id ∈ H →
    orderly (H ∖ {[id]}) k →
    orderly H (Unlock id k)
| orderly_ext H A c (enc : A → reply) f k :
    (∀ a, orderly H (k a)) →
    orderly H (Ext c enc f k).

(** Every goroutine is orderly, and every lock the registry holds is
    held by one of them. *)
Definition owner_invariant {R : Type} (m : machine W R) : Prop :=
  ∃ Hs : list (gset string),
    Forall2 orderly Hs (threads m)
    ∧ ∀ id, id ∈ held (shared_state m) →
            ∃ i Hi, Hs !! i = Some Hi ∧ id ∈ Hi.

(** The program has returned. *)
Definition finished {R : Type} (p : prog W R) : bool :=
  match p with
  | Ret _ => true
  | _ => false
  end.

(** The volume types the package declares. *)
Definition declared_type (t : VolumeType) : Prop :=
  t = VolumeTypeImage ∨ t = VolumeTypeCustom
  ∨ t = VolumeTypeContainer ∨ t = VolumeTypeVM.

End MoreVocabulary.

(** *** A small world to run the code in *)

(** The number of holders of the one volume, and the directories with
    their modes. *)
Record demo_world : Type := {
  holders : nat;
  dirs : gmap string FileMode;
}.

(** Every prefix of [acc ++ path] that ends before a separator, then the
    whole path. *)
Fixpoint dir_prefixes (acc path : string) : list string :=
  match path with
  | EmptyString => [acc]
  | String c rest =>
      (if decide (c = Ascii.ascii_of_nat 47)
       then (if decide (acc = "") then [] else [acc])
       else [])
      ++ dir_prefixes (acc +:+ String c "") rest
  end.

Definition demo_MkdirAll (path : string) (perm : FileMode) (w : demo_world)
  : option error * demo_world :=
  (None,
   {| holders := holders w;
      dirs := foldl (λ fs p, match fs !! p with
                             | Some _ => fs
                             | None => <[p := perm]> fs
                             end)
                    (dirs w) (dir_prefixes "" path) |}).

Definition demo_Chmod (path : string) (mode : FileMode) (w : demo_world)
  : option error * demo_world :=
  match dirs w !! path with
  | Some _ => (None, {| holders := holders w; dirs := <[path := mode]> (dirs w) |})
  | None => (Some (Errorf "chmod: no such file or directory"), w)
  end.

#[global] Instance demo_env : Env demo_world := {|
  GetVolumeMountPath poolName volType volName :=
    "/pools/" +:+ poolName +:+ "/" +:+ volType +:+ "/" +:+ volName;
  os_MkdirAll := demo_MkdirAll;
  os_Chmod := demo_Chmod;
|}.

(** A driver that counts holders: the first mount and the last unmount
    are the physical ones. *)
Definition demo_mount (w : demo_world) : (bool * option error) * demo_world :=
  ((bool_decide (holders w = 0), None),
   {| holders := S (holders w); dirs := dirs w |}).

Definition demo_unmount (w : demo_world) : (bool * option error) * demo_world :=
  ((bool_decide (holders w = 1), None),
   {| holders := pred (holders w); dirs := dirs w |}).

Definition counting_driver : Driver demo_world := {|
  MountVolume _ _ _ := demo_mount;
  MountVolumeSnapshot _ _ _ _ := demo_mount;
  UnmountVolume _ _ _ := demo_unmount;
  UnmountVolumeSnapshot _ _ _ _ := demo_unmount;
  VolumeSnapshots _ _ _ w := ((["snap0"; "snap1"], None), w);
|}.

(** A driver whose unmount fails after a physical mount. *)
Definition busy_driver : Driver demo_world := {|
  MountVolume _ _ _ := demo_mount;
  MountVolumeSnapshot _ _ _ _ := demo_mount;
  UnmountVolume _ _ _ w := ((false, Some (Errorf "device is busy")), w);
  UnmountVolumeSnapshot _ _ _ _ w := ((false, Some (Errorf "device is busy")), w);
  VolumeSnapshots _ _ _ w := (([], None), w);
|}.

(** A driver whose mount fails. *)
Definition failing_driver : Driver demo_world := {|
  MountVolume _ _ _ w := ((false, Some (Errorf "no such device")), w);
  MountVolumeSnapshot _ _ _ _ w := ((false, Some (Errorf "no such device")), w);
  UnmountVolume _ _ _ := demo_unmount;
  UnmountVolumeSnapshot _ _ _ _ := demo_unmount;
  VolumeSnapshots _ _ _ w := (([], Some (Errorf "no such device")), w);
|}.

Definition demo_volume (d : Driver demo_world) (t : VolumeType) (volName : string)
  : Volume demo_world :=
  NewVolume d "default" t ContentTypeFS volName None.

Definition demo_state : state demo_world :=
  Build_state {| holders := 0; dirs := ∅ |} ∅ [].

Definition task_ok : Task demo_world := λ _ _ w, (Returned None, w).
Definition task_failing : Task demo_world :=
  λ _ _ w, (Returned (Some (Errorf "task failed")), w).

(** Two goroutines run [MountTask] on the same volume. *)
Definition demo_calls : list (Volume demo_world * Task demo_world * Operation) :=
  [(demo_volume counting_driver VolumeTypeContainer "c1", task_ok, None);
   (demo_volume counting_driver VolumeTypeContainer "c1", task_ok, None)].

Definition demo_machine : machine demo_world outcome :=
  Build_machine ((λ x, MountTask x.1.1 x.1.2 x.2) <$> demo_calls) demo_state.

End drivers.

(** ** Package [storage]: the pool resolver *)
Module storage.

(** [api.StoragePool], the fields the resolver reads and writes. *)
Record StoragePool : Type := {
  Name : string;
  Driver : string;
  Config : option (gmap string string);
}.

(** A [*api.StoragePool]: [nil] or the address of a descriptor. *)
Definition StoragePoolPtr : Type := option nat.

(** Modelled from the spec: the logging packages are not part of the
    sources at hand; a logger is the sink [logger.Log] scoped with context
    tags, the resolver adding [{driver, pool}]. *)
Record Logger : Type := { ctx : gmap string string }.
Definition Log : Logger := {| ctx := ∅ |}.
Definition AddContext (l : Logger) (c : gmap string string) : Logger :=
  {| ctx := c ∪ ctx l |}.

(** The catalog ([state.Cluster]), as far as the resolver consults it. *)
Record Cluster (W : Type) : Type := {
  StoragePoolNodeVolumeGetTypeByProject :
    string → string → Z → Z → W → (Z * option error) * W;
  StoragePoolGet : string → W → result (Z * StoragePool) * W;
  ContainerPool : string → string → W → (string * option error) * W;
}.
Arguments StoragePoolNodeVolumeGetTypeByProject {W} _ _ _ _ _ _.
Arguments StoragePoolGet {W} _ _ _.
Arguments ContainerPool {W} _ _ _ _.

(** [*state.State], the shared daemon context. *)
Record State (W : Type) : Type := { cluster : Cluster W }.
Arguments cluster {W} _.

(** A call that leaves the package, with its arguments. *)
Inductive event : Type :=
| EvContainerPool (projectName instanceName : string)
| EvStoragePoolGet (poolName : string)
| EvVolumeGet (project volName : string) (volTypeID poolID : Z)
| EvLoad (driverName poolName : string) (config : option (gmap string string))
| EvCreate (poolName : string).

(** The process state of the resolver: the global [MockBackend], the
    descriptors pointers refer to, the outside world, and the record of
    the outside calls made so far, oldest first. *)
Record world (W : Type) : Type := {
  MockBackend : bool;
  heap : gmap nat StoragePool;
  ext : W;
  log : list event;
}.
Arguments MockBackend {W} _.
Arguments heap {W} _.
Arguments ext {W} _.
Arguments log {W} _.
Arguments Build_world {W} _ _ _ _.

(** A computation on the process state; [None] when it follows a pointer
    that refers to no descriptor, which a Go pointer never does. *)
Definition M (W A : Type) : Type := world W → option (A * world W).

#[global] Instance M_ret {W} : MRet (M W) := λ _ a w, Some (a, w).
#[global] Instance M_bind {W} : MBind (M W) :=
  λ _ _ g m w, match m w with
               | Some (a, w') => g a w'
               | None => None
               end.

Definition get_MockBackend {W} : M W bool := λ w, Some (MockBackend w, w).

Definition load_descriptor {W} (p : nat) : M W StoragePool :=
  λ w, match heap w !! p with
       | Some d => Some (d, w)
       | None => None
       end.

Definition store_descriptor {W} (p : nat) (d : StoragePool) : M W unit :=
  λ w, Some (tt, Build_world (MockBackend w) (<[p := d]> (heap w)) (ext w) (log w)).

Definition outside {W A} (ev : event) (f : W → A * W) : M W A :=
  λ w, let '(a, x) := f (ext w) in
       Some (a, Build_world (MockBackend w) (heap w) x (log w ++ [ev])).

(** The function type the drivers receive to resolve volume IDs. *)
Definition VolIDFunc (W : Type) : Type :=
  drivers.VolumeType → string → M W (Z * option error).

(** The two implementations of the [Pool] interface. *)
Record mockBackend (W : Type) : Type := {
  mock_name : string;
  mock_state : State W;
  mock_logger : Logger;
}.
Arguments Build_mockBackend {W} _ _ _.

Record lxdBackend (W : Type) : Type := {
  lxd_driver : drivers.Driver W;
  lxd_id : Z;
  lxd_name : string;
  lxd_state : State W;
  lxd_logger : Logger;
}.
Arguments Build_lxdBackend {W} _ _ _ _ _.
Arguments lxd_name {W} _.

Inductive Pool (W : Type) : Type :=
| MockPool (p : mockBackend W)
| LxdPool (p : lxdBackend W).
Arguments MockPool {W} p.
Arguments LxdPool {W} p.

(** What the resolver takes from the rest of the repository:
    [VolumeTypeToDBType] ([utils.go]), [drivers.Load] (called with the
    fixed rule set [validateVolumeCommonRules], left out here) and the
    [create] method of [lxdBackend], which receives the descriptor's
    address. *)
Class Env (W : Type) : Type := {
  VolumeTypeToDBType : drivers.VolumeType → Z * option error;
  drivers_Load :
    State W → string → string → option (gmap string string) → Logger →
    VolIDFunc W → W → result (drivers.Driver W) * W;
  lxdBackend_create :
    lxdBackend W → nat → drivers.Operation →
    gmap nat StoragePool * W → option error * (gmap nat StoragePool * W);
}.

Section Resolver.
Context {W : Type} `{!Env W}.

(** The call of [pool.create(dbPool, op)]. *)
Definition call_create (pool : lxdBackend W) (dbPool : nat)
    (op : drivers.Operation) : M W (option error) :=
  λ w, let '(err, (h, x)) := lxdBackend_create pool dbPool op (heap w, ext w) in
       Some (err, Build_world (MockBackend w) h x (log w ++ [EvCreate (lxd_name pool)])).

(** The project and the volume name the callback looks up (the block
    that starts at [project := "default"]). *)
Definition project_and_name (volType : drivers.VolumeType) (volName : string)
  : string * string :=
  let project := "default" in
  if bool_decide (volType = drivers.VolumeTypeContainer)
     || bool_decide (volType = drivers.VolumeTypeVM)
  then
    let volParts := GoStrings.SplitN volName "_" 2 in
    if bool_decide (1 < length volParts)%nat
    then (default "" (volParts !! 0), default "" (volParts !! 1))
    else (project, volName)
  else (project, volName).

Definition volIDFuncMake (state : State W) (poolID : Z) : VolIDFunc W :=
  λ volType volName,
    let '(volTypeID, err) := VolumeTypeToDBType volType in
    match err with
    | Some e => mret (-1, Some e)%Z
    | None =>
        let '(project, volName) := project_and_name volType volName in
        '(volID, err) ←
          outside (EvVolumeGet project volName volTypeID poolID)
            (StoragePoolNodeVolumeGetTypeByProject (cluster state)
               project volName volTypeID poolID);
        match err with
        | Some e =>
            if decide (e = ErrNoSuchObject) then
              mret (-1, Some (Errorf
                ("Failed to get volume ID for project '" +:+ project
                 +:+ "', volume '" +:+ volName +:+ "', type '" +:+ volType
                 +:+ "': Volume doesn't exist")))%Z
            else mret (-1, Some e)%Z
        | None => mret (volID, None)
        end
    end.

(** [log.Ctx{"driver": driverName, "pool": poolName}]. *)
Definition Ctx (driverName poolName : string) : gmap string string :=
  {[ "driver" := driverName; "pool" := poolName ]}.

(** A descriptor with its config map replaced by the empty map. *)
Definition with_empty_config (d : StoragePool) : StoragePool :=
  {| Name := Name d; Driver := Driver d; Config := Some ∅ |}.

Definition CreatePool (state : State W) (poolID : Z) (dbPool : StoragePoolPtr)
    (op : drivers.Operation) : M W (result (Pool W)) :=
  match dbPool with
  | None => mret (Err ErrNilValue)
  | Some p =>
      d ← load_descriptor p;
      (match Config d with
       | None => store_descriptor p (with_empty_config d)
       | Some _ => mret tt
       end);;
      mock ← get_MockBackend;
      if (mock : bool) then
        d ← load_descriptor p;
        mret (Ok (MockPool
          (Build_mockBackend (Name d) state
             (AddContext Log (Ctx "mock" (Name d))))))
      else
        d ← load_descriptor p;
        let logger := AddContext Log (Ctx (Driver d) (Name d)) in
        r ← outside (EvLoad (Driver d) (Name d) (Config d))
              (drivers_Load state (Driver d) (Name d) (Config d) logger
                 (volIDFuncMake state poolID));
        match r with
        | Err e => mret (Err e)
        | Ok driver =>
            let pool := Build_lxdBackend driver poolID (Name d) state logger in
            err ← call_create pool p op;
            match err with
            | Some e => mret (Err e)
            | None => mret (Ok (LxdPool pool))
            end
        end
  end.

Definition GetPoolByName (state : State W) (name : string)
  : M W (result (Pool W)) :=
  mock ← get_MockBackend;
  if (mock : bool) then
    mret (Ok (MockPool
      (Build_mockBackend name state (AddContext Log (Ctx "mock" name)))))
  else
    r ← outside (EvStoragePoolGet name) (StoragePoolGet (cluster state) name);
    match r with
    | Err e => mret (Err e)
    | Ok (poolID, dbPool) =>
        let dbPool :=
          match Config dbPool with
          | None => with_empty_config dbPool
          | Some _ => dbPool
          end in
        let logger := AddContext Log (Ctx (Driver dbPool) (Name dbPool)) in
        r ← outside (EvLoad (Driver dbPool) (Name dbPool) (Config dbPool))
              (drivers_Load state (Driver dbPool) (Name dbPool) (Config dbPool)
                 logger (volIDFuncMake state poolID));
        match r with
        | Err e => mret (Err e)
        | Ok driver =>
            mret (Ok (LxdPool
              (Build_lxdBackend driver poolID (Name dbPool) state logger)))
        end
    end.

Definition GetPoolByInstanceName (s : State W) (projectName instanceName : string)
  : M W (result (Pool W)) :=
  '(poolName, err) ←
    outside (EvContainerPool projectName instanceName)
      (ContainerPool (cluster s) projectName instanceName);
  match err with
  | Some e => mret (Err e)
  | None => GetPoolByName s poolName
  end.

End Resolver.

(** *** Vocabulary of the statements about the callback *)

(** The design document's words for the name decoding: the text before
    and after the first underscore, if there is one. *)
Fixpoint split_first_underscore (s : string) : option (string * string) :=
  match s with
  | EmptyString => None
  | String c rest =>
      if decide (c = Ascii.ascii_of_nat 95) then Some ("", rest)
      else match split_first_underscore rest with
           | Some (project, volName) => Some (String c project, volName)
           | None => None
           end
  end.

(** The design document's words for the lookup key: container and
    virtual-machine names split on the first underscore into project and
    name, the project being "default" without an underscore; names of
    other types are never split. *)
Definition spec_project_and_name (volType : drivers.VolumeType)
    (volName : string) : string * string :=
  if bool_decide (volType = drivers.VolumeTypeContainer
                  ∨ volType = drivers.VolumeTypeVM)
  then match split_first_underscore volName with
       | Some (project, name) => (project, name)
       | None => ("default", volName)
       end
  else ("default", volName).

(** *** Vocabulary of further statements *)

(** A descriptor as the resolver uses it: a nil config map replaced by
    the empty map. *)
Definition defaulted (d : StoragePool) : StoragePool :=
  match Config d with
  | None => with_empty_config d
  | Some _ => d
  end.
(** The driver loads among some outside calls all carry a config map. *)
Definition loads_carry_config (evs : list event) : Prop :=
  ∀ driverName poolName config,
    EvLoad driverName poolName config ∈ evs → is_Some config.
(** None of the outside calls creates a pool. *)
Definition no_create (evs : list event) : Prop :=
  ∀ poolName, EvCreate poolName ∉ evs.

(** *** A small catalog to run the resolver on *)

(** One instance [c1] in project [default], kept on the one pool [default]
    of driver [dir], whose stored config is absent. *)
Definition demo_cluster : Cluster drivers.demo_world := {|
  StoragePoolNodeVolumeGetTypeByProject project volName _ _ w :=
    (if bool_decide (project = "default" ∧ volName = "c1")
     then (7%Z, None) else ((-1)%Z, Some ErrNoSuchObject), w);
  StoragePoolGet poolName w :=
    (if bool_decide (poolName = "default")
     then Ok (1%Z, {| Name := "default"; Driver := "dir"; Config := None |})
     else Err ErrNoSuchObject, w);
  ContainerPool projectName instanceName w :=
    (if bool_decide (projectName = "default" ∧ instanceName = "c1")
     then ("default", None) else ("", Some ErrNoSuchObject), w);
|}.

Definition demo_State : State drivers.demo_world := {| cluster := demo_cluster |}.

#[global] Instance demo_env : Env drivers.demo_world := {|
  VolumeTypeToDBType volType :=
    if bool_decide (volType = drivers.VolumeTypeContainer) then (0%Z, None)
    else if bool_decide (volType = drivers.VolumeTypeImage) then (1%Z, None)
    else if bool_decide (volType = drivers.VolumeTypeCustom) then (2%Z, None)
    else if bool_decide (volType = drivers.VolumeTypeVM) then (3%Z, None)
    else ((-1)%Z, Some (Errorf "Invalid storage volume type"));
  drivers_Load _ driverName _ _ _ _ w :=
    (if bool_decide (driverName = "dir") then Ok drivers.counting_driver
     else Err (Errorf "Unknown driver"), w);
  lxdBackend_create _ _ _ hw := (None, hw);
|}.

(** A process whose one descriptor, at address 0, has no config map. *)
Definition demo_world_with (mock : bool) : world drivers.demo_world :=
  Build_world mock
    {[ 0 := {| Name := "default"; Driver := "dir"; Config := None |} ]}
    {| drivers.holders := 0; drivers.dirs := ∅ |}
    [].

(** A process in real mode whose one descriptor, at address 0, has a
    config map. *)
Definition demo_world_configured : world drivers.demo_world :=
  Build_world false
    {[ 0 := {| Name := "default"; Driver := "dir";
               Config := Some {[ "size" := "1GB" ]} |} ]}
    {| drivers.holders := 0; drivers.dirs := ∅ |}
    [].

End storage.

(** * Facts about the string helpers *)
Section string_facts.
Import GoStrings.

Lemma append_nil (t : string) : "" +:+ t = t.
Proof. reflexivity. Qed.

Lemma append_cons (c : Ascii.ascii) (s t : string) :
  String c s +:+ t = String c (s +:+ t).
Proof. reflexivity. Qed.

Lemma HasPrefix_app (s sep : string) :
  HasPrefix s sep = true → s = sep +:+ slice_from (String.length sep) s.
Proof.
  revert s. induction sep as [|c sep IH]; intros [|d s]; simpl; try done.
  case_decide; [|done]. intros Hp. subst d.
  rewrite append_cons. f_equal. by apply IH.
Qed.

Lemma HasPrefix_self_app (sep rest : string) : HasPrefix (sep +:+ rest) sep = true.
Proof.
  induction sep as [|c sep IH]; [rewrite append_nil; by destruct rest|].
  rewrite append_cons. simpl. rewrite decide_True; [apply IH | done].
Qed.

Lemma Cut_unfold (s sep : string) :
  Cut s sep =
  if HasPrefix s sep then Some ("", slice_from (String.length sep) s)
  else match s with
       | EmptyString => None
       | String c s' =>
           match Cut s' sep with
           | Some (before, after) => Some (String c before, after)
           | None => None
           end
       end.
Proof. by destruct s. Qed.

Lemma Cut_Some (s sep before after : string) :
  Cut s sep = Some (before, after) → s = before +:+ sep +:+ after.
Proof.
  revert before. induction s as [|c s IH]; intros before;
    rewrite Cut_unfold; destruct (HasPrefix _ sep) eqn:Hp; try done.
  - intros ?; simplify_eq. by apply HasPrefix_app in Hp.
  - intros ?; simplify_eq. by apply HasPrefix_app in Hp.
  - destruct (Cut s sep) as [[b a]|] eqn:Hc; [|done].
    intros ?; simplify_eq. rewrite append_cons. f_equal. by apply IH.
Qed.

Lemma Cut_app_is_Some (before sep after : string) :
  is_Some (Cut (before +:+ sep +:+ after) sep).
Proof.
  induction before as [|c b IH].
  - rewrite append_nil, Cut_unfold, HasPrefix_self_app. by eexists.
  - rewrite append_cons, Cut_unfold.
    destruct (HasPrefix _ sep); [by eexists|].
    destruct IH as [[x y] ->]. by eexists.
Qed.

Lemma Contains_app (before sep after : string) :
  Contains (before +:+ sep +:+ after) sep = true.
Proof.
  unfold Contains. by destruct (Cut_app_is_Some before sep after) as [? ->].
Qed.

(** With a one-byte separator, the cut is at the first occurrence. *)
Lemma Cut_first_byte (before after : string) (c : Ascii.ascii) :
  Contains before (String c "") = false →
  Cut (before +:+ String c "" +:+ after) (String c "") = Some (before, after).
Proof.
  unfold Contains. induction before as [|d b IH].
  - intros _. rewrite append_nil, Cut_unfold, HasPrefix_self_app.
    by rewrite append_cons, append_nil.
  - rewrite append_cons, (Cut_unfold (String d b)), (Cut_unfold (String d _)).
    simpl. destruct (decide (c = d)) as [->|Hne].
    + by destruct b.
    + destruct (Cut b (String c "")) as [[x y]|] eqn:Hc; [done|].
      intros _. by rewrite IH.
Qed.

Lemma SplitN_2 (s sep : string) :
  SplitN s sep 2 = match Cut s sep with
                   | Some (before, after) => [before; after]
                   | None => [s]
                   end.
Proof. simpl. by destruct (Cut s sep) as [[??]|]. Qed.

End string_facts.

Section shared_facts.
Import shared.

Lemma ContainerGetParentAndSnapshotName_flag (name : string) :
  (ContainerGetParentAndSnapshotName name).2 = IsSnapshot name.
Proof.
  unfold ContainerGetParentAndSnapshotName, IsSnapshot, GoStrings.Contains.
  rewrite SplitN_2. by destruct (GoStrings.Cut _ _) as [[??]|].
Qed.

Lemma ContainerGetParentAndSnapshotName_join (name parent snap : string) :
  ContainerGetParentAndSnapshotName name = (parent, snap, true) →
  name = parent +:+ SnapshotDelimiter +:+ snap.
Proof.
  unfold ContainerGetParentAndSnapshotName. rewrite SplitN_2.
  destruct (GoStrings.Cut _ _) as [[b a]|] eqn:Hc; [|done].
  intros ?; simplify_eq. by apply Cut_Some.
Qed.

Lemma ContainerGetParentAndSnapshotName_plain (name : string) :
  IsSnapshot name = false →
  ContainerGetParentAndSnapshotName name = (name, "", false).
Proof.
  unfold ContainerGetParentAndSnapshotName, IsSnapshot, GoStrings.Contains.
  rewrite SplitN_2. by destruct (GoStrings.Cut _ _) as [[??]|].
Qed.

Lemma ContainerGetParentAndSnapshotName_snapshot (parent snap : string) :
  IsSnapshot parent = false →
  ContainerGetParentAndSnapshotName (parent +:+ SnapshotDelimiter +:+ snap)
  = (parent, snap, true).
Proof.
  intros Hp. unfold ContainerGetParentAndSnapshotName, SnapshotDelimiter.
  by rewrite SplitN_2, Cut_first_byte.
Qed.
End shared_facts.

(** * Running the programs of [volume.go] alone *)
Section drivers_run.
Import drivers.
Context {W : Type} `{!Env W}.

Lemma run_bind {R S : Type} (p : prog W R) (g : R → prog W S) (s : state W) :
  run (bind p g) s =
  match run p s with
  | Some (r, s') => run (g r) s'
  | None => None
  end.
Proof.
  revert s. induction p as [r|id k IH|id k IH|A c enc f k IH]; intros s; simpl.
  - done.
  - case_decide; [done|]. apply IH.
  - apply IH.
  - destruct (f (ext s)) as [a w]. apply IH.
Qed.

(** The operations [mount_op] and [unmount_op] name, by the shape of the
    volume's name. *)
Lemma mount_op_plain (v : Volume W) (op : Operation) :
  IsSnapshot v = false →
  mount_op v op = (CMountVolume (volType v) (name v) op,
                   MountVolume (driver v) (volType v) (name v) op)
  ∧ unmount_op v op = (CUnmountVolume (volType v) (name v) op,
                       UnmountVolume (driver v) (volType v) (name v) op).
Proof.
  intros Hv. unfold mount_op, unmount_op.
  by rewrite ContainerGetParentAndSnapshotName_plain.
Qed.

Lemma mount_op_snapshot (v : Volume W) (op : Operation) (parent snap : string) :
  name v = GetSnapshotVolumeName parent snap →
  shared.IsSnapshot parent = false →
  mount_op v op
  = (CMountVolumeSnapshot (volType v) parent snap op,
     MountVolumeSnapshot (driver v) (volType v) parent snap op)
  ∧ unmount_op v op
    = (CUnmountVolumeSnapshot (volType v) parent snap op,
       UnmountVolumeSnapshot (driver v) (volType v) parent snap op).
Proof.
  intros Hn Hp. unfold mount_op, unmount_op. rewrite Hn.
  unfold GetSnapshotVolumeName.
  by rewrite ContainerGetParentAndSnapshotName_snapshot.
Qed.
(** Running a program alone is stepping it until it returns. *)
Lemma run_thread_step {R : Type} (p p' : prog W R) (s s' : state W) :
  thread_step p s = Some (p', s') → run p s = run p' s'.
Proof.
  destruct p as [r|id k|id k|A c enc f k]; simpl.
  - done.
  - case_decide; [done|]. intros ?; by simplify_eq.
  - intros ?; by simplify_eq.
  - destruct (f (ext s)) as [a w]. intros ?; by simplify_eq.
Qed.

Lemma held_restore (id : string) (H : gset string) :
  id ∉ H → ({[id]} ∪ H) ∖ {[id]} = H.
Proof.
  intros Hid. apply set_eq. intros x.
  rewrite elem_of_difference, elem_of_union, elem_of_singleton.
  split; [intros [[->|Hx] Hne]; done|].
  intros Hx. split; [by right|]. by intros ->.
Qed.

Lemma run_compensate (v : Volume W) (op : Operation) (s : state W)
    (r : bool * option error) (w : W) :
  umountLockID v ∉ held s →
  (unmount_op v op).2 (ext s) = (r, w) →
  run (compensate v op) s =
  Some (tt, Build_state w (held s) (log s ++ [((unmount_op v op).1, RMount r)])).
Proof.
  intros Hfree Hun. unfold compensate. simpl.
  rewrite decide_False by done. simpl. rewrite Hun. simpl.
  by rewrite held_restore.
Qed.

(** The registered deferred call is the compensating action. *)
Lemma run_MountTask_body_mounted (v : Volume W) (task : Task W) (op : Operation)
    (s : state W) (ourMount : bool) (w1 w2 : W) (o : outcome) :
  mountLockID v ∉ held s →
  (mount_op v op).2 (ext s) = ((ourMount, None), w1) →
  task (MountPath v) op w1 = (o, w2) →
  run (MountTask_body v task op) s =
  Some ((if ourMount then [compensate v op] else [], o),
        Build_state w2 (held s)
          ((log s ++ [((mount_op v op).1, RMount (ourMount, None))])
             ++ [(CTask (MountPath v) op, RTask o)])).
Proof.
  intros Hfree Hm Ht. unfold MountTask_body, compensate, mount_op, unmount_op in *.
  destruct (shared.ContainerGetParentAndSnapshotName (name v)) as [[p sn] [|]];
    simpl in *; rewrite decide_False by done; simpl; rewrite Hm; simpl;
    rewrite Ht; simpl; rewrite held_restore by done; by destruct ourMount.
Qed.

Lemma run_MountTask_body_failed (v : Volume W) (task : Task W) (op : Operation)
    (s : state W) (ourMount : bool) (e : error) (w1 : W) :
  mountLockID v ∉ held s →
  (mount_op v op).2 (ext s) = ((ourMount, Some e), w1) →
  run (MountTask_body v task op) s =
  Some (([], Returned (Some e)),
        Build_state w1 (held s)
          (log s ++ [((mount_op v op).1, RMount (ourMount, Some e))])).
Proof.
  intros Hfree Hm. unfold MountTask_body, mount_op in *.
  destruct (shared.ContainerGetParentAndSnapshotName (name v)) as [[p sn] [|]];
    simpl in *; rewrite decide_False by done; simpl; rewrite Hm; simpl;
    by rewrite held_restore.
Qed.

(** C1: [MountTask] registers the compensating unmount exactly when the
    driver's mount call reported that it performed the physical mount; the
    registered action then runs after the task, whatever the task's
    outcome (nil, an error or a panic), and is the last call made. *)
Theorem MountTask_compensates_iff_our_mount (v : Volume W) (task : Task W)
    (op : Operation) (s : state W) (ourMount : bool) (w1 w2 w3 : W)
    (o : outcome) (r : bool * option error) :
  mountLockID v ∉ held s →
  (ourMount = true → umountLockID v ∉ held s) →
  (mount_op v op).2 (ext s) = ((ourMount, None), w1) →
  task (MountPath v) op w1 = (o, w2) →
  (unmount_op v op).2 w2 = (r, w3) →
  fst <$> run (MountTask_body v task op) s
    = Some (if ourMount then [compensate v op] else [], o)
  ∧ run (MountTask v task op) s
    = Some (o, Build_state (if ourMount then w3 else w2) (held s)
                 (log s
                  ++ [((mount_op v op).1, RMount (ourMount, None));
                      (CTask (MountPath v) op, RTask o)]
                  ++ (if ourMount then [((unmount_op v op).1, RMount r)]
                      else []))).
Proof.
  intros Hm Hu Hmount Htask Hunmount.
  pose proof (run_MountTask_body_mounted v task op s ourMount w1 w2 o
                Hm Hmount Htask) as Hbody.
  split; [by rewrite Hbody|].
  unfold MountTask, with_defers. rewrite run_bind, Hbody.
  destruct ourMount; simpl reverse; simpl run_deferred.
  - rewrite !run_bind.
    rewrite (run_compensate v op _ r w3); [|by apply Hu|done]. simpl.
    by rewrite <- !(assoc_L (++)).
  - simpl. by rewrite <- !(assoc_L (++)).
Qed.

(** C3, as the code has it: when the compensating unmount runs and the
    driver's unmount call fails, [MountTask] still returns exactly what
    the task returned, nil included; the unmount error is dropped, it is
    neither returned nor reported to the caller. *)
Theorem MountTask_drops_unmount_error (v : Volume W) (task : Task W)
    (op : Operation) (s : state W) (w1 w2 w3 : W) (o : outcome)
    (physical : bool) (e : error) :
  mountLockID v ∉ held s →
  umountLockID v ∉ held s →
  (mount_op v op).2 (ext s) = ((true, None), w1) →
  task (MountPath v) op w1 = (o, w2) →
  (unmount_op v op).2 w2 = ((physical, Some e), w3) →
  run (MountTask v task op) s
    = Some (o, Build_state w3 (held s)
                 (log s
                  ++ [((mount_op v op).1, RMount (true, None));
                      (CTask (MountPath v) op, RTask o);
                      ((unmount_op v op).1, RMount (physical, Some e))])).
Proof.
  intros Hm Hu Hmount Htask Hunmount.
  unfold MountTask, with_defers.
  rewrite run_bind, (run_MountTask_body_mounted v task op s true w1 w2 o) by done.
  simpl reverse. simpl run_deferred. rewrite !run_bind.
  rewrite (run_compensate v op _ (physical, Some e) w3) by done. simpl.
  by rewrite <- !(assoc_L (++)).
Qed.

(** C4: when the driver's mount (or mount-snapshot) call fails,
    [MountTask] returns that error; the mount call is the only call made,
    so the task is not invoked, and no compensating unmount is registered
    or performed. *)
Theorem MountTask_mount_error (v : Volume W) (task : Task W) (op : Operation)
    (s : state W) (ourMount : bool) (e : error) (w1 : W) :
  mountLockID v ∉ held s →
  (mount_op v op).2 (ext s) = ((ourMount, Some e), w1) →
  fst <$> run (MountTask_body v task op) s = Some ([], Returned (Some e))
  ∧ run (MountTask v task op) s
    = Some (Returned (Some e),
            Build_state w1 (held s)
              (log s ++ [((mount_op v op).1, RMount (ourMount, Some e))])).
Proof.
  intros Hm Hmount.
  pose proof (run_MountTask_body_failed v task op s ourMount e w1 Hm Hmount)
    as Hbody.
  split; [by rewrite Hbody|].
  unfold MountTask, with_defers. by rewrite run_bind, Hbody.
Qed.

End drivers_run.

(** * Goroutines running [MountTask] side by side *)
Section drivers_locks.
Import drivers.
Context {W : Type} `{!Env W}.

Lemma disciplined_next_call {R : Type} (H : gset string) (p : prog W R)
    (c : call) (id : string) :
  disciplined H p → next_call p = Some c → guard c = Some id → id ∈ H.
Proof.
  intros Hd. destruct Hd as [| | |H A c' enc f k Hg Hk]; simpl; try done.
  intros ?; simplify_eq. apply Hg.
Qed.

(** A step of a disciplined goroutine keeps it disciplined, keeps its
    locks held in the registry, and takes nothing from the others. *)
Lemma disciplined_thread_step {R : Type} (H : gset string) (p p' : prog W R)
    (s s' : state W) :
  disciplined H p → H ⊆ held s → thread_step p s = Some (p', s') →
  ∃ H', disciplined H' p' ∧ H' ⊆ held s'
        ∧ ∀ G : gset string, G ## H → G ⊆ held s → G ## H' ∧ G ⊆ held s'.
Proof.
  intros Hd Hsub Hstep.
  destruct Hd as [H r|H id k Hk|H id k Hin Hk|H A c enc f k Hg Hk]; simpl in Hstep.
  - done.
  - case_decide as Hfree; [done|]. simplify_eq. exists ({[id]} ∪ H).
    split; [done|]. simpl. split; [by apply union_mono_l|].
    intros G HG HGs. split.
    + apply elem_of_disjoint. intros x HxG.
      rewrite elem_of_union, elem_of_singleton. intros [->|HxH].
      * by apply Hfree, HGs.
      * by apply (proj1 (elem_of_disjoint G H) HG x).
    + intros x HxG. by apply elem_of_union_r, HGs.
  - simplify_eq. exists (H ∖ {[id]}).
    split; [done|]. simpl. split.
    { intros x. rewrite !elem_of_difference. intros [HxH Hne].
      split; [by apply Hsub|done]. }
    intros G HG HGs. split.
    + apply elem_of_disjoint. intros x HxG.
      rewrite elem_of_difference. intros [HxH _].
      by apply (proj1 (elem_of_disjoint G H) HG x).
    + intros x HxG. rewrite elem_of_difference, elem_of_singleton.
      split; [by apply HGs|]. intros ->.
      by apply (proj1 (elem_of_disjoint G H) HG id).
  - destruct (f (ext s)) as [a w]. simplify_eq. exists H.
    split; [apply Hk|]. simpl. split; [done|]. by intros G HG HGs.
Qed.

Lemma lock_invariant_step {R : Type} (m m' : machine W R) :
  lock_invariant m → step m m' → lock_invariant m'.
Proof.
  intros (Hs & Hall & Hdisj & Hsub) [i Hstep]. unfold sched_step in Hstep.
  destruct (threads m !! i) as [p|] eqn:Hp; [|done].
  destruct (thread_step p (shared_state m)) as [[p' s']|] eqn:Hts; [|done].
  simplify_eq.
  destruct (Forall2_lookup_r _ _ _ _ _ Hall Hp) as (Hi & HHi & Hd).
  destruct (disciplined_thread_step Hi p p' _ s' Hd (Hsub _ _ HHi) Hts)
    as (H' & Hd' & Hsub' & Hothers).
  exists (<[i := H']> Hs). simpl. split; [|split].
  - by apply Forall2_insert.
  - intros a b Ga Gb Hab Hla Hlb.
    destruct (decide (a = i)) as [->|Hai].
    + rewrite list_lookup_insert_eq in Hla
        by (by apply lookup_lt_Some in HHi).
      rewrite list_lookup_insert_ne in Hlb by done. simplify_eq.
      symmetry. apply (Hothers Gb).
      * symmetry. exact (Hdisj i b Hi Gb Hab HHi Hlb).
      * exact (Hsub b Gb Hlb).
    + rewrite list_lookup_insert_ne in Hla by done.
      destruct (decide (b = i)) as [->|Hbi].
      * rewrite list_lookup_insert_eq in Hlb
          by (by apply lookup_lt_Some in HHi).
        simplify_eq. apply (Hothers Ga).
        -- exact (Hdisj a i Ga Hi Hab Hla HHi).
        -- exact (Hsub a Ga Hla).
      * rewrite list_lookup_insert_ne in Hlb by done.
        exact (Hdisj a b Ga Gb Hab Hla Hlb).
  - intros a Ga Hla. destruct (decide (a = i)) as [->|Hai].
    + rewrite list_lookup_insert_eq in Hla
        by (by apply lookup_lt_Some in HHi).
      by simplify_eq.
    + rewrite list_lookup_insert_ne in Hla by done.
      apply (Hothers Ga).
      * exact (Hdisj a i Ga Hi Hai Hla HHi).
      * exact (Hsub a Ga Hla).
Qed.

Lemma lock_invariant_rtc {R : Type} (m m' : machine W R) :
  lock_invariant m → rtc step m m' → lock_invariant m'.
Proof.
  intros Hinv Hsteps. induction Hsteps as [|m1 m2 m3 Hstep _ IH]; [done|].
  apply IH. by eapply lock_invariant_step.
Qed.

Lemma lock_invariant_init {R : Type} (ps : list (prog W R)) (s : state W) :
  Forall (disciplined ∅) ps → lock_invariant (Build_machine ps s).
Proof.
  intros Hall. exists (replicate (length ps) ∅). simpl. split; [|split].
  - apply Forall2_same_length_lookup_2; [by rewrite length_replicate|].
    intros i H p [-> _]%lookup_replicate Hp.
    by eapply (Forall_lookup_1 _ _ _ _ Hall).
  - intros i j Hi Hj _ [-> _]%lookup_replicate _. set_solver.
  - intros i Hi [-> _]%lookup_replicate. set_solver.
Qed.

Lemma lock_invariant_exclusive {R : Type} (m : machine W R) (i j : nat)
    (c1 c2 : call) (id : string) :
  lock_invariant m →
  next_calls m !! i = Some (Some c1) →
  next_calls m !! j = Some (Some c2) →
  guard c1 = Some id → guard c2 = Some id → i = j.
Proof.
  intros (Hs & Hall & Hdisj & _) Hi Hj Hg1 Hg2.
  unfold next_calls in *. rewrite list_lookup_fmap in Hi, Hj.
  destruct (threads m !! i) as [p1|] eqn:Hp1; [|done].
  destruct (threads m !! j) as [p2|] eqn:Hp2; [|done].
  simpl in *. simplify_eq.
  destruct (Forall2_lookup_r _ _ _ _ _ Hall Hp1) as (H1 & HH1 & Hd1).
  destruct (Forall2_lookup_r _ _ _ _ _ Hall Hp2) as (H2 & HH2 & Hd2).
  destruct (decide (i = j)) as [|Hne]; [done|].
  pose proof (disciplined_next_call _ _ _ _ Hd1 Hi Hg1).
  pose proof (disciplined_next_call _ _ _ _ Hd2 Hj Hg2).
  pose proof (Hdisj i j H1 H2 Hne HH1 HH2). set_solver.
Qed.

Lemma run_schedule_rtc {R : Type} (sched : list nat) (m m' : machine W R) :
  run_schedule sched m = Some m' → rtc step m m'.
Proof.
  revert m. induction sched as [|i sched IH]; intros m; simpl.
  - intros ?; by simplify_eq.
  - destruct (sched_step i m) as [m1|] eqn:Hs; [|done].
    intros Hrest. eapply rtc_l; [by exists i|by apply IH].
Qed.

Lemma mountLockID_guard (v : Volume W) : mountLockID v = mount_lock (volType v) (name v).
Proof. done. Qed.

Lemma MountTask_disciplined (v : Volume W) (task : Task W) (op : Operation) :
  disciplined ∅ (MountTask v task op).
Proof.
  unfold MountTask, with_defers, MountTask_body.
  destruct (shared.ContainerGetParentAndSnapshotName (name v))
    as [[p sn] [|]] eqn:Hsplit; simpl.
  - apply ContainerGetParentAndSnapshotName_join in Hsplit.
    apply disciplined_lock, disciplined_ext.
    { intros id. simpl. unfold GetSnapshotVolumeName. rewrite <- Hsplit.
      intros ?; simplify_eq. unfold mountLockID, mount_lock. set_solver. }
    intros [[|] [e|]]; simpl;
      (apply disciplined_unlock; [set_solver|]);
      try apply disciplined_ret;
      (apply disciplined_ext; [done|]); intros o; simpl;
      try apply disciplined_ret.
    apply disciplined_lock, disciplined_ext.
    { intros id. simpl. unfold GetSnapshotVolumeName. rewrite <- Hsplit.
      intros ?; simplify_eq. unfold umountLockID, umount_lock. set_solver. }
    intros ?. simpl. apply disciplined_unlock; [set_solver|].
    apply disciplined_ret.
  - apply disciplined_lock, disciplined_ext.
    { intros id. simpl. intros ?; simplify_eq.
      unfold mountLockID, mount_lock. set_solver. }
    intros [[|] [e|]]; simpl;
      (apply disciplined_unlock; [set_solver|]);
      try apply disciplined_ret;
      (apply disciplined_ext; [done|]); intros o; simpl;
      try apply disciplined_ret.
    apply disciplined_lock, disciplined_ext.
    { intros id. simpl. intros ?; simplify_eq.
      unfold umountLockID, umount_lock. set_solver. }
    intros ?. simpl. apply disciplined_unlock; [set_solver|].
    apply disciplined_ret.
Qed.

End drivers_locks.

(** * Properties of [volume.go] *)
Section drivers_properties.
Import drivers.
Context {W : Type} `{!Env W}.

Lemma mount_lock_ne_umount_lock (t : VolumeType) (volName : string) :
  mount_lock t volName ≠ umount_lock t volName.
Proof. unfold mount_lock, umount_lock. rewrite !append_cons. congruence. Qed.

(** C2, as the code has it: the mount decision for a (volume type, volume
    name) pair is made under the lock [mount/<type>/<name>] and the
    unmount decision under the lock [umount/<type>/<name>], a different
    identifier.  Among any goroutines running [MountTask], two that are
    about to make driver calls guarded by the same lock are one and the
    same goroutine: mount decisions for a pair exclude each other, and so
    do unmount decisions. *)
Theorem MountTask_lock_exclusion
    (calls : list (Volume W * Task W * Operation)) (s0 : state W)
    (m : machine W outcome) (i j : nat) (c1 c2 : call) (id : string) :
  rtc step (Build_machine ((λ x, MountTask x.1.1 x.1.2 x.2) <$> calls) s0) m →
  next_calls m !! i = Some (Some c1) →
  next_calls m !! j = Some (Some c2) →
  guard c1 = Some id →
  guard c2 = Some id →
  i = j ∧ ∀ t volName, mount_lock t volName ≠ umount_lock t volName.
Proof.
  intros Hreach Hi Hj Hg1 Hg2. split; [|apply mount_lock_ne_umount_lock].
  eapply (lock_invariant_exclusive m i j c1 c2 id); try done.
  eapply lock_invariant_rtc; [|exact Hreach].
  apply lock_invariant_init, Forall_fmap, Forall_forall.
  intros [[v task] op] _. apply MountTask_disciplined.
Qed.

(** C7: [CreateMountPath] asks for the mount path and its missing
    ancestors with mode 0711; it then sets the mount path itself to mode
    0100 exactly when the volume type is neither custom nor image; an
    error of either call is returned, and a failed creation ends the
    function before any mode change. *)
Theorem CreateMountPath_modes (v : Volume W) (s : state W)
    (e1 e2 : option error) (w1 w2 : W) :
  os_MkdirAll (MountPath v) mode_0711 (ext s) = (e1, w1) →
  os_Chmod (MountPath v) mode_0100 w1 = (e2, w2) →
  run (CreateMountPath v) s =
  Some (match e1 with
        | Some e =>
            (Some e,
             Build_state w1 (held s)
               (log s ++ [(CMkdirAll (MountPath v) mode_0711, RErr e1)]))
        | None =>
            if decide (volType v = VolumeTypeCustom ∨ volType v = VolumeTypeImage)
            then
              (None,
               Build_state w1 (held s)
                 (log s ++ [(CMkdirAll (MountPath v) mode_0711, RErr None)]))
            else
              (e2,
               Build_state w2 (held s)
                 ((log s ++ [(CMkdirAll (MountPath v) mode_0711, RErr None)])
                    ++ [(CChmod (MountPath v) mode_0100, RErr e2)]))
        end)
  ∧ mode_0711 = 457%N ∧ mode_0100 = 64%N.
Proof.
  intros Hmk Hch. split; [|done]. unfold CreateMountPath. simpl. rewrite Hmk.
  destruct e1 as [e|]; simpl; [done|].
  destruct (decide (volType v = VolumeTypeCustom)) as [Hc|Hc].
  { rewrite bool_decide_eq_false_2 by (by intros ?). simpl.
    by rewrite decide_True by (by left). }
  rewrite (bool_decide_eq_true_2 _ Hc).
  destruct (decide (volType v = VolumeTypeImage)) as [Hi|Hi].
  { rewrite bool_decide_eq_false_2 by (by intros ?). simpl.
    by rewrite decide_True by (by right). }
  rewrite (bool_decide_eq_true_2 _ Hi). simpl. rewrite Hch.
  rewrite decide_False by (by intros [?|?]). by destruct e2.
Qed.

(** C8: on a volume that is a snapshot, [NewSnapshot] fails (no snapshot
    of a snapshot) and [Snapshots] fails, each with its error of an
    invalid operation; [NewSnapshot] is a pure function and [Snapshots]
    leaves the process state as it found it: no driver call is made. *)
Theorem snapshot_volume_refused (v : Volume W) (snapshotName : string)
    (op : Operation) (s : state W) :
  IsSnapshot v = true →
  NewSnapshot v snapshotName
    = Err (Errorf "Cannot create a snapshot volume from a snapshot")
  ∧ run (Snapshots v op) s = Some (Err (Errorf "Volume is a snapshot"), s).
Proof.
  intros Hsnap. unfold NewSnapshot, Snapshots. by rewrite Hsnap.
Qed.

(** C9: on a volume that is not a snapshot, [NewSnapshot] succeeds; the
    result is named [<parent>/<suffix>], has the parent's pool, volume
    type, content type, config and driver, and is a snapshot. *)
Theorem NewSnapshot_of_parent (v : Volume W) (snapshotName : string) :
  IsSnapshot v = false →
  ∃ snap : Volume W,
    NewSnapshot v snapshotName = Ok snap
    ∧ name snap = GetSnapshotVolumeName (name v) snapshotName
    ∧ name snap = name v +:+ "/" +:+ snapshotName
    ∧ pool snap = pool v
    ∧ volType snap = volType v
    ∧ contentType snap = contentType v
    ∧ config snap = config v
    ∧ driver snap = driver v
    ∧ IsSnapshot snap = true.
Proof.
  intros Hsnap. unfold NewSnapshot. rewrite Hsnap. eexists. split; [done|].
  simpl. repeat (split; [done|]).
  unfold IsSnapshot, shared.IsSnapshot, GetSnapshotVolumeName. simpl.
  apply Contains_app.
Qed.

End drivers_properties.

(** * The properties on the small world *)
Section drivers_examples.
Import drivers.

Lemma MountTask_compensates_iff_our_mount_witness :
  run (MountTask (demo_volume counting_driver VolumeTypeContainer "c1")
         task_failing None) demo_state
  = Some (Returned (Some (Errorf "task failed")),
          Build_state {| holders := 0; dirs := ∅ |} ∅
            [(CMountVolume "containers" "c1" None, RMount (true, None));
             (CTask "/pools/default/containers/c1" None,
              RTask (Returned (Some (Errorf "task failed"))));
             (CUnmountVolume "containers" "c1" None, RMount (true, None))]).
Proof.
  refine (proj2 (MountTask_compensates_iff_our_mount
    (demo_volume counting_driver VolumeTypeContainer "c1") task_failing None
    demo_state true _ _ _ _ _ _ _ _ _ _)).
  - apply not_elem_of_empty.
  - intros _. apply not_elem_of_empty.
  - reflexivity.
  - reflexivity.
  - reflexivity.
Defined.

Lemma MountTask_unmount_error_is_dropped :
  run (MountTask (demo_volume busy_driver VolumeTypeContainer "c1")
         task_ok None) demo_state
  = Some (Returned None,
          Build_state {| holders := 1; dirs := ∅ |} ∅
            [(CMountVolume "containers" "c1" None, RMount (true, None));
             (CTask "/pools/default/containers/c1" None, RTask (Returned None));
             (CUnmountVolume "containers" "c1" None,
              RMount (false, Some (Errorf "device is busy")))]).
Proof. vm_compute. reflexivity. Qed.

Lemma MountTask_drops_unmount_error_witness :
  run (MountTask (demo_volume busy_driver VolumeTypeContainer "c1/snap0")
         task_failing None) demo_state
  = Some (Returned (Some (Errorf "task failed")),
          Build_state {| holders := 1; dirs := ∅ |} ∅
            [(CMountVolumeSnapshot "containers" "c1" "snap0" None,
              RMount (true, None));
             (CTask "/pools/default/containers/c1/snap0" None,
              RTask (Returned (Some (Errorf "task failed"))));
             (CUnmountVolumeSnapshot "containers" "c1" "snap0" None,
              RMount (false, Some (Errorf "device is busy")))]).
Proof.
  refine (MountTask_drops_unmount_error
    (demo_volume busy_driver VolumeTypeContainer "c1/snap0") task_failing None
    demo_state _ _ _ _ false (Errorf "device is busy") _ _ _ _ _).
  - apply not_elem_of_empty.
  - apply not_elem_of_empty.
  - reflexivity.
  - reflexivity.
  - reflexivity.
Defined.

Lemma MountTask_mount_error_witness :
  fst <$> run (MountTask_body (demo_volume failing_driver VolumeTypeCustom "data")
                 task_ok None) demo_state
  = Some ([], Returned (Some (Errorf "no such device")))
  ∧ run (MountTask (demo_volume failing_driver VolumeTypeCustom "data")
           task_ok None) demo_state
  = Some (Returned (Some (Errorf "no such device")),
          Build_state {| holders := 0; dirs := ∅ |} ∅
            [(CMountVolume "custom" "data" None,
              RMount (false, Some (Errorf "no such device")))]).
Proof.
  refine (MountTask_mount_error
    (demo_volume failing_driver VolumeTypeCustom "data") task_ok None
    demo_state false (Errorf "no such device") _ _ _).
  - apply not_elem_of_empty.
  - reflexivity.
Defined.

(** The first goroutine has mounted, run its task and taken the unmount
    lock; the second takes the mount lock: one is about to unmount the
    volume while the other is about to mount it. *)
Lemma MountTask_mount_overlaps_unmount :
  next_calls <$> run_schedule [0; 0; 0; 0; 0; 1] demo_machine
  = Some [Some (CUnmountVolume "containers" "c1" None);
          Some (CMountVolume "containers" "c1" None)]
  ∧ bool_decide
      (mountLockID (demo_volume counting_driver VolumeTypeContainer "c1")
       = umountLockID (demo_volume counting_driver VolumeTypeContainer "c1"))
    = false.
Proof. split; vm_compute; reflexivity. Qed.

Lemma MountTask_lock_exclusion_witness :
  next_calls <$> run_schedule [0] demo_machine
  = Some [Some (CMountVolume "containers" "c1" None); None]
  ∧ 0 = 0
  ∧ ∀ t volName, mount_lock t volName ≠ umount_lock t volName.
Proof.
  assert (next_calls <$> run_schedule [0] demo_machine
          = Some [Some (CMountVolume "containers" "c1" None); None]) as Hcalls
    by (vm_compute; reflexivity).
  split; [exact Hcalls|].
  destruct (run_schedule [0] demo_machine) as [m|] eqn:Hm; [|discriminate Hcalls].
  injection Hcalls as Hcalls.
  apply (MountTask_lock_exclusion demo_calls demo_state m 0 0
           (CMountVolume "containers" "c1" None)
           (CMountVolume "containers" "c1" None)
           (mount_lock "containers" "c1")).
  - apply (run_schedule_rtc [0]). exact Hm.
  - rewrite Hcalls. reflexivity.
  - rewrite Hcalls. reflexivity.
  - reflexivity.
  - reflexivity.
Defined.

Lemma CreateMountPath_modes_witness :
  run (CreateMountPath (demo_volume counting_driver VolumeTypeContainer "c1"))
    demo_state
  = Some (None,
          Build_state
            {| holders := 0;
               dirs := {[ "/pools" := 457%N;
                          "/pools/default" := 457%N;
                          "/pools/default/containers" := 457%N;
                          "/pools/default/containers/c1" := 64%N ]} |}
            ∅
            [(CMkdirAll "/pools/default/containers/c1" 457%N, RErr None);
             (CChmod "/pools/default/containers/c1" 64%N, RErr None)])
  ∧ mode_0711 = 457%N ∧ mode_0100 = 64%N.
Proof.
  pose proof (CreateMountPath_modes
    (demo_volume counting_driver VolumeTypeContainer "c1") demo_state
    None None _ _ eq_refl eq_refl) as Hrun.
  vm_compute in Hrun. vm_compute. exact Hrun.
Defined.

Lemma snapshot_volume_refused_witness :
  NewSnapshot (demo_volume counting_driver VolumeTypeContainer "c1/snap0") "again"
    = Err (Errorf "Cannot create a snapshot volume from a snapshot")
  ∧ run (Snapshots (demo_volume counting_driver VolumeTypeContainer "c1/snap0")
           None) demo_state
    = Some (Err (Errorf "Volume is a snapshot"), demo_state).
Proof.
  apply (snapshot_volume_refused
    (demo_volume counting_driver VolumeTypeContainer "c1/snap0")).
  reflexivity.
Defined.

Lemma NewSnapshot_of_parent_witness :
  ∃ snap : Volume demo_world,
    NewSnapshot (demo_volume counting_driver VolumeTypeContainer "c1") "snap0"
      = Ok snap
    ∧ name snap = GetSnapshotVolumeName "c1" "snap0"
    ∧ name snap = "c1/snap0"
    ∧ pool snap = "default"
    ∧ volType snap = VolumeTypeContainer
    ∧ contentType snap = ContentTypeFS
    ∧ config snap = None
    ∧ driver snap = counting_driver
    ∧ IsSnapshot snap = true.
Proof.
  apply (NewSnapshot_of_parent
    (demo_volume counting_driver VolumeTypeContainer "c1") "snap0").
  reflexivity.
Defined.

End drivers_examples.

(** * Properties of the pool resolver *)
Section storage_properties.
Import storage.
Context {W : Type} `{!Env W}.

Lemma Cut_underscore (s : string) :
  GoStrings.Cut s "_" = split_first_underscore s.
Proof.
  induction s as [|c s IH]; [done|].
  rewrite Cut_unfold. simpl. rewrite IH.
  destruct (decide (c = Ascii.ascii_of_nat 95)) as [->|Hne].
  - by destruct s.
  - rewrite (decide_False (P := Ascii.ascii_of_nat 95 = c)); [done|].
    by intros <-.
Qed.

Lemma project_and_name_spec (volType : drivers.VolumeType) (volName : string) :
  project_and_name volType volName = spec_project_and_name volType volName.
Proof.
  unfold project_and_name, spec_project_and_name.
  rewrite SplitN_2, Cut_underscore.
  destruct (split_first_underscore volName) as [[??]|];
    repeat case_bool_decide; simpl in *;
    try done; try (exfalso; tauto); lia.
Qed.

(** C6: whenever the callback reaches the catalog, that is for every
    volume type that has a catalog code, and for every volume name, it
    makes exactly one lookup, and the project and name it looks up are the
    ones of the design document: split on the first underscore for
    container and virtual-machine volumes, project "default" when there is
    no underscore, never split for the other types. *)
Theorem volIDFunc_lookup_key (state : State W) (poolID volTypeID : Z)
    (volType : drivers.VolumeType) (volName : string) (w : world W) :
  VolumeTypeToDBType volType = (volTypeID, None) →
  ∃ (r : Z * option error) (w' : world W),
    volIDFuncMake state poolID volType volName w = Some (r, w')
    ∧ log w' = (log w ++ [EvVolumeGet (spec_project_and_name volType volName).1
                            (spec_project_and_name volType volName).2
                            volTypeID poolID])%list.
Proof.
  intros Hty. unfold volIDFuncMake. rewrite Hty, project_and_name_spec.
  destruct (spec_project_and_name volType volName) as [project name].
  unfold mbind, M_bind, outside. simpl.
  destruct (StoragePoolNodeVolumeGetTypeByProject _ _ _ _ _ _) as [[volID [e|]] x].
  - destruct (decide (e = ErrNoSuchObject)); by eexists _, _.
  - by eexists _, _.
Qed.

(** The three cases of the name decoding, spelled out. *)
Lemma spec_project_and_name_other (volType : drivers.VolumeType) (volName : string) :
  volType ≠ drivers.VolumeTypeContainer → volType ≠ drivers.VolumeTypeVM →
  spec_project_and_name volType volName = ("default", volName).
Proof.
  intros Hc Hv. unfold spec_project_and_name.
  by rewrite bool_decide_eq_false_2 by (by intros [?|?]).
Qed.

Lemma split_first_underscore_Cut (s : string) :
  split_first_underscore s = GoStrings.Cut s "_".
Proof. symmetry. apply Cut_underscore. Qed.

Lemma spec_project_and_name_split (volType : drivers.VolumeType)
    (project name : string) :
  volType = drivers.VolumeTypeContainer ∨ volType = drivers.VolumeTypeVM →
  GoStrings.Contains project "_" = false →
  spec_project_and_name volType (project +:+ "_" +:+ name) = (project, name).
Proof.
  intros Hty Hp. unfold spec_project_and_name.
  rewrite (bool_decide_eq_true_2 _ Hty), split_first_underscore_Cut.
  by rewrite Cut_first_byte.
Qed.

Lemma spec_project_and_name_plain (volType : drivers.VolumeType) (volName : string) :
  GoStrings.Contains volName "_" = false →
  spec_project_and_name volType volName = ("default", volName).
Proof.
  intros Hp. unfold spec_project_and_name, GoStrings.Contains in *.
  rewrite split_first_underscore_Cut.
  destruct (GoStrings.Cut volName "_"); [done|]. by case_bool_decide.
Qed.

(** C5, as the code has it: with the mock switch enabled, [CreatePool]
    (given a descriptor) and [GetPoolByName] return the in-memory
    substitute pool at once, with no outside call at all: no driver load,
    no catalog lookup, no disk access.  [GetPoolByInstanceName] first asks
    the catalog for the instance's pool, returns the catalog's error if
    there is one, and only then returns the substitute pool for the pool
    name found; that lookup is its only outside call. *)
Theorem mock_switch_short_circuit (state : State W) (poolID : Z) (p : nat)
    (d : StoragePool) (op : drivers.Operation)
    (name projectName instanceName poolName : string) (err : option error)
    (x : W) (w : world W) :
  MockBackend w = true →
  heap w !! p = Some d →
  ContainerPool (cluster state) projectName instanceName (ext w)
    = ((poolName, err), x) →
  CreatePool state poolID (Some p) op w
    = Some (Ok (MockPool (Build_mockBackend (Name d) state
                            (AddContext Log (Ctx "mock" (Name d))))),
            match Config d with
            | None =>
                Build_world (MockBackend w)
                  (<[p := with_empty_config d]> (heap w)) (ext w) (log w)
            | Some _ => w
            end)
  ∧ GetPoolByName state name w
    = Some (Ok (MockPool (Build_mockBackend name state
                            (AddContext Log (Ctx "mock" name)))), w)
  ∧ GetPoolByInstanceName state projectName instanceName w
    = Some (match err with
            | Some e => Err e
            | None => Ok (MockPool (Build_mockBackend poolName state
                                      (AddContext Log (Ctx "mock" poolName))))
            end,
            Build_world (MockBackend w) (heap w) x
              (log w ++ [EvContainerPool projectName instanceName])%list).
Proof.
  intros Hmock Hp Hcat. split; [|split].
  - unfold CreatePool, mbind, M_bind, load_descriptor, get_MockBackend.
    rewrite Hp. destruct (Config d) as [c|] eqn:Hc; simpl.
    + rewrite Hmock. simpl. by rewrite Hp.
    + rewrite Hmock. simpl. by rewrite lookup_insert_eq.
  - unfold GetPoolByName, mbind, M_bind, get_MockBackend.
    by rewrite Hmock.
  - unfold GetPoolByInstanceName, GetPoolByName, mbind, M_bind, outside,
      get_MockBackend.
    rewrite Hcat. destruct err as [e|]; simpl; [done|]. by rewrite Hmock.
Qed.

(** C10: given a descriptor whose config map is nil, [CreatePool] first
    stores the empty map in the caller's descriptor, the name and the
    driver staying as they are.  With the mock switch enabled that is its
    only effect besides returning the substitute pool.  Otherwise the
    driver is loaded with the empty map, and the pool's [create] finds the
    descriptor already updated. *)
Theorem CreatePool_defaults_config_in_place (state : State W) (poolID : Z)
    (p : nat) (d : StoragePool) (op : drivers.Operation) (w : world W)
    (loaded : result (drivers.Driver W)) (x1 : W) :
  heap w !! p = Some d →
  Config d = None →
  drivers_Load state (Driver d) (Name d) (Some ∅)
      (AddContext Log (Ctx (Driver d) (Name d)))
      (volIDFuncMake state poolID) (ext w) = (loaded, x1) →
  with_empty_config d = {| Name := Name d; Driver := Driver d; Config := Some ∅ |}
  ∧ (MockBackend w = true →
     CreatePool state poolID (Some p) op w
     = Some (Ok (MockPool (Build_mockBackend (Name d) state
                             (AddContext Log (Ctx "mock" (Name d))))),
             Build_world true (<[p := with_empty_config d]> (heap w))
               (ext w) (log w)))
  ∧ (MockBackend w = false →
     match loaded with
     | Err e =>
         CreatePool state poolID (Some p) op w
         = Some (Err e,
                 Build_world false (<[p := with_empty_config d]> (heap w)) x1
                   (log w ++ [EvLoad (Driver d) (Name d) (Some ∅)])%list)
     | Ok driver =>
         ∀ (created : option error) (h : gmap nat StoragePool) (x2 : W),
           lxdBackend_create
             (Build_lxdBackend driver poolID (Name d) state
                (AddContext Log (Ctx (Driver d) (Name d))))
             p op (<[p := with_empty_config d]> (heap w), x1)
           = (created, (h, x2)) →
           CreatePool state poolID (Some p) op w
           = Some (match created with
                   | Some e => Err e
                   | None =>
                       Ok (LxdPool
                             (Build_lxdBackend driver poolID (Name d) state
                                (AddContext Log (Ctx (Driver d) (Name d)))))
                   end,
                   Build_world false h x2
                     ((log w ++ [EvLoad (Driver d) (Name d) (Some ∅)])
                        ++ [EvCreate (Name d)])%list)
     end).
Proof.
  intros Hp Hc Hload. split; [done|].
  unfold CreatePool, mbind, M_bind, load_descriptor, get_MockBackend.
  rewrite Hp, Hc. simpl. split; intros Hmock; rewrite Hmock; simpl;
    rewrite lookup_insert_eq; [done|].
  unfold outside. simpl. rewrite Hload. destruct loaded as [driver|e]; [|done].
  intros created h x2 Hcreate. unfold call_create. simpl. rewrite Hcreate.
  by destruct created.
Qed.

End storage_properties.

Section storage_examples.
Import storage.

(** With the mock switch enabled, [GetPoolByInstanceName] on an instance
    the catalog does not know consults the catalog and fails. *)
Lemma mock_GetPoolByInstanceName_asks_catalog :
  GetPoolByInstanceName demo_State "default" "nope" (demo_world_with true)
  = Some (Err ErrNoSuchObject,
          Build_world true
            {[ 0 := {| Name := "default"; Driver := "dir"; Config := None |} ]}
            {| drivers.holders := 0; drivers.dirs := ∅ |}
            [EvContainerPool "default" "nope"]).
Proof. vm_compute. reflexivity. Qed.

Lemma mock_switch_short_circuit_witness :
  CreatePool demo_State 1 (Some 0) None (demo_world_with true)
    = Some (Ok (MockPool (Build_mockBackend "default" demo_State
                            (AddContext Log (Ctx "mock" "default")))),
            Build_world true
              {[ 0 := {| Name := "default"; Driver := "dir"; Config := Some ∅ |} ]}
              {| drivers.holders := 0; drivers.dirs := ∅ |} [])
  ∧ GetPoolByName demo_State "any" (demo_world_with true)
    = Some (Ok (MockPool (Build_mockBackend "any" demo_State
                            (AddContext Log (Ctx "mock" "any")))),
            demo_world_with true)
  ∧ GetPoolByInstanceName demo_State "default" "c1" (demo_world_with true)
    = Some (Ok (MockPool (Build_mockBackend "default" demo_State
                            (AddContext Log (Ctx "mock" "default")))),
            Build_world true
              {[ 0 := {| Name := "default"; Driver := "dir"; Config := None |} ]}
              {| drivers.holders := 0; drivers.dirs := ∅ |}
              [EvContainerPool "default" "c1"]).
Proof.
  pose proof (mock_switch_short_circuit demo_State 1 0
    {| Name := "default"; Driver := "dir"; Config := None |} None
    "any" "default" "c1" "default" None
    {| drivers.holders := 0; drivers.dirs := ∅ |} (demo_world_with true)
    eq_refl eq_refl eq_refl) as (Hcreate & Hname & Hinst).
  split; [|split].
  - rewrite Hcreate. vm_compute. reflexivity.
  - exact Hname.
  - exact Hinst.
Defined.

Lemma volIDFunc_lookup_key_witness :
  ∃ (r : Z * option error) (w' : world drivers.demo_world),
    volIDFuncMake demo_State 1 drivers.VolumeTypeContainer "proj1_myvol"
      (demo_world_with false) = Some (r, w')
    ∧ log w' = [EvVolumeGet "proj1" "myvol" 0 1].
Proof.
  apply (volIDFunc_lookup_key demo_State 1 0 drivers.VolumeTypeContainer
           "proj1_myvol" (demo_world_with false)).
  reflexivity.
Defined.

Lemma CreatePool_defaults_config_in_place_witness :
  CreatePool demo_State 1 (Some 0) None (demo_world_with false)
  = Some (Ok (LxdPool (Build_lxdBackend drivers.counting_driver 1 "default"
                         demo_State (AddContext Log (Ctx "dir" "default")))),
          Build_world false
            {[ 0 := {| Name := "default"; Driver := "dir"; Config := Some ∅ |} ]}
            {| drivers.holders := 0; drivers.dirs := ∅ |}
            [EvLoad "dir" "default" (Some ∅); EvCreate "default"]).
Proof.
  pose proof (CreatePool_defaults_config_in_place demo_State 1 0
    {| Name := "default"; Driver := "dir"; Config := None |} None
    (demo_world_with false) (Ok drivers.counting_driver)
    {| drivers.holders := 0; drivers.dirs := ∅ |}
    eq_refl eq_refl eq_refl) as (_ & _ & Hreal).
  rewrite (Hreal eq_refl None _ _ eq_refl). vm_compute. reflexivity.
Defined.

End storage_examples.

(** * Further properties of [volume.go] *)
Section drivers_more.
Import drivers.
Context {W : Type} `{!Env W}.

Lemma Snapshots_loop_parent (v : Volume W) (names : list string)
    (snapVols : list (Volume W)) :
  IsSnapshot v = false →
  Snapshots_loop v names snapVols
  = Ok (snapVols
        ++ ((λ n, NewVolume (driver v) (pool v) (volType v) (contentType v)
                    (GetSnapshotVolumeName (name v) n) (config v)) <$> names))%list.
Proof.
  intros Hv. revert snapVols.
  induction names as [|n names IH]; intros snapVols; simpl.
  - by rewrite app_nil_r.
  - unfold NewSnapshot. rewrite Hv, IH. by rewrite <- (assoc_L (++)).
Qed.

(** X1: on a volume that is not a snapshot, [Snapshots] asks the driver
    once for the snapshot names; a driver error is returned as it is, and
    otherwise the result lists, in the driver's order, one volume per
    name, named by the snapshot convention and sharing the parent's pool,
    type, content type, config and driver.  The loop's error branch is
    never taken. *)
Theorem Snapshots_of_parent (v : Volume W) (op : Operation) (s : state W)
    (names : list string) (err : option error) (w1 : W) :
  IsSnapshot v = false →
  VolumeSnapshots (driver v) (volType v) (name v) op (ext s) = ((names, err), w1) →
  run (Snapshots v op) s
  = Some (match err with
          | Some e => Err e
          | None =>
              Ok ((λ n, NewVolume (driver v) (pool v) (volType v)
                          (contentType v)
                          (GetSnapshotVolumeName (name v) n) (config v))
                    <$> names)
          end,
          Build_state w1 (held s)
            (log s ++ [(CVolumeSnapshots (volType v) (name v) op,
                        RNames (names, err))])%list).
Proof.
  intros Hv Hd. unfold Snapshots. rewrite Hv. simpl. rewrite Hd.
  destruct err as [e|]; simpl; [done|].
  by rewrite Snapshots_loop_parent.
Qed.

(** X2: the mount lock is held around the driver's mount call only.  A
    goroutine running [MountTask] is about to call the driver with the
    mount lock added to the registry, and after a successful mount it is
    about to call the task with the registry as it was before
    [MountTask]: the task runs with the mount lock released. *)
Theorem MountTask_task_runs_unlocked (v : Volume W) (task : Task W)
    (op : Operation) (s : state W) (ourMount : bool) (w1 : W) :
  mountLockID v ∉ held s →
  (mount_op v op).2 (ext s) = ((ourMount, None), w1) →
  ∃ m1 m3 : machine W outcome,
    run_schedule [0] (Build_machine [MountTask v task op] s) = Some m1
    ∧ next_calls m1 = [Some (mount_op v op).1]
    ∧ held (shared_state m1) = {[mountLockID v]} ∪ held s
    ∧ run_schedule [0; 0; 0] (Build_machine [MountTask v task op] s) = Some m3
    ∧ next_calls m3 = [Some (CTask (MountPath v) op)]
    ∧ held (shared_state m3) = held s
    ∧ ext (shared_state m3) = w1.
Proof.
  intros Hfree Hm. unfold MountTask, with_defers, MountTask_body, mount_op in *.
  destruct (shared.ContainerGetParentAndSnapshotName (name v)) as [[p sn] [|]];
    simpl in *; unfold sched_step; simpl;
    rewrite decide_False by done; simpl; rewrite Hm; simpl;
    eexists _, _; repeat (split; [reflexivity|]); simpl;
    (split; [by apply held_restore|done]).
Qed.

Lemma append_cancel_l (s a b : string) : s +:+ a = s +:+ b → a = b.
Proof.
  induction s as [|c s IH]; [done|].
  rewrite !append_cons. intros ?; simplify_eq. by apply IH.
Qed.

Lemma type_and_name_inj (t1 t2 n1 n2 : string) :
  GoStrings.Contains t1 "/" = false →
  GoStrings.Contains t2 "/" = false →
  t1 +:+ "/" +:+ n1 = t2 +:+ "/" +:+ n2 →
  t1 = t2 ∧ n1 = n2.
Proof.
  intros H1 H2 Heq.
  pose proof (Cut_first_byte t1 n1 _ H1) as Hc1.
  pose proof (Cut_first_byte t2 n2 _ H2) as Hc2.
  rewrite Heq, Hc2 in Hc1. by simplify_eq.
Qed.

Lemma declared_type_no_slash (t : VolumeType) :
  declared_type t → GoStrings.Contains t "/" = false.
Proof. by intros [-> | [-> | [-> | ->]]]. Qed.

(** X3: for volumes of the declared types, the two lock identifiers tell
    the (volume type, volume name) pairs apart: two volumes have the same
    mount lock, or the same unmount lock, only if they have the same type
    and the same name; and a mount lock is never an unmount lock. *)
Theorem lock_ids_tell_volumes_apart (v1 v2 : Volume W) :
  declared_type (volType v1) →
  declared_type (volType v2) →
  (mountLockID v1 = mountLockID v2 →
   volType v1 = volType v2 ∧ name v1 = name v2)
  ∧ (umountLockID v1 = umountLockID v2 →
     volType v1 = volType v2 ∧ name v1 = name v2)
  ∧ mountLockID v1 ≠ umountLockID v2.
Proof.
  intros H1%declared_type_no_slash H2%declared_type_no_slash.
  unfold mountLockID, umountLockID. split; [|split].
  - intros Heq%append_cancel_l. by apply type_and_name_inj.
  - intros Heq%append_cancel_l. by apply type_and_name_inj.
  - rewrite !append_cons. congruence.
Qed.

(** Orderly programs and the owner invariant. *)
Lemma orderly_eq {R : Type} (H H' : gset string) (p : prog W R) :
  orderly H p → H = H' → orderly H' p.
Proof. by intros Hp <-. Qed.

Lemma orderly_thread_step {R : Type} (H : gset string) (p p' : prog W R)
    (s s' : state W) :
  orderly H p → thread_step p s = Some (p', s') →
  ∃ H', orderly H' p'
        ∧ (∀ id, id ∈ H → id ∈ held s' → id ∈ H')
        ∧ (∀ id, id ∈ held s' → id ∈ held s ∨ id ∈ H').
Proof.
  intros Ho Hstep.
  destruct Ho as [r|id k Hk|H id k Hin Hk|H A c enc f k Hk]; simpl in Hstep.
  - done.
  - case_decide as Hfree; [done|]. simplify_eq. exists {[id]}.
    split; [done|]. simpl. split; [by intros x ?%elem_of_empty|].
    intros x [?|?]%elem_of_union; [by right|by left].
  - simplify_eq. exists (H ∖ {[id]}). split; [done|]. simpl. split.
    + intros x HxH [_ Hne]%elem_of_difference. by apply elem_of_difference.
    + intros x [Hx _]%elem_of_difference. by left.
  - destruct (f (ext s)) as [a w]. simplify_eq. exists H.
    split; [apply Hk|]. simpl. split; [done|]. intros x ?. by left.
Qed.

Lemma owner_invariant_step {R : Type} (m m' : machine W R) :
  owner_invariant m → step m m' → owner_invariant m'.
Proof.
  intros (Hs & Hall & Hown) [i Hstep]. unfold sched_step in Hstep.
  destruct (threads m !! i) as [p|] eqn:Hp; [|done].
  destruct (thread_step p (shared_state m)) as [[p' s']|] eqn:Hts; [|done].
  simplify_eq.
  destruct (Forall2_lookup_r _ _ _ _ _ Hall Hp) as (Hi & HHi & Ho).
  destruct (orderly_thread_step Hi p p' _ s' Ho Hts) as (H' & Ho' & Hkeep & Hnew).
  assert (i < length Hs) as Hlen by (by apply lookup_lt_Some in HHi).
  exists (<[i := H']> Hs). simpl. split; [by apply Forall2_insert|].
  intros id Hid. destruct (Hnew id Hid) as [Hold|Hmine].
  - destruct (Hown id Hold) as (j & Hj & HHj & Hidj).
    destruct (decide (j = i)) as [->|Hne].
    + exists i, H'. rewrite list_lookup_insert_eq by done. split; [done|].
      simplify_eq. by apply Hkeep.
    + exists j, Hj. by rewrite list_lookup_insert_ne.
  - exists i, H'. by rewrite list_lookup_insert_eq.
Qed.

Lemma owner_invariant_rtc {R : Type} (m m' : machine W R) :
  owner_invariant m → rtc step m m' → owner_invariant m'.
Proof.
  intros Hinv Hsteps. induction Hsteps as [|m1 m2 m3 Hstep _ IH]; [done|].
  apply IH. by eapply owner_invariant_step.
Qed.

Lemma owner_invariant_init {R : Type} (ps : list (prog W R)) (s : state W) :
  held s = ∅ → Forall (orderly ∅) ps → owner_invariant (Build_machine ps s).
Proof.
  intros Hfree Hall. exists (replicate (length ps) ∅). simpl. split.
  - apply Forall2_same_length_lookup_2; [by rewrite length_replicate|].
    intros i H p [-> _]%lookup_replicate Hp.
    by eapply (Forall_lookup_1 _ _ _ _ Hall).
  - rewrite Hfree. by intros id ?%elem_of_empty.
Qed.

(** An orderly goroutine that holds a lock can step. *)
Lemma orderly_holder_steps {R : Type} (H : gset string) (p : prog W R)
    (s : state W) (id : string) :
  orderly H p → id ∈ H → is_Some (thread_step p s).
Proof.
  intros Ho Hid.
  destruct Ho as [r|id' k Hk|H id' k Hin Hk|H A c enc f k Hk]; simpl.
  - by apply elem_of_empty in Hid.
  - by apply elem_of_empty in Hid.
  - by eexists.
  - destruct (f (ext s)) as [a w]. by eexists.
Qed.

(** A goroutine that cannot step has returned or waits for a held lock. *)
Lemma stuck_thread {R : Type} (p : prog W R) (s : state W) :
  thread_step p s = None →
  finished p = true ∨ ∃ id k, p = Lock id k ∧ id ∈ held s.
Proof.
  destruct p as [r|id k|id k|A c enc f k]; simpl.
  - by left.
  - case_decide; [|done]. intros _. right. by eexists _, _.
  - done.
  - by destruct (f (ext s)).
Qed.

Lemma some_thread_steps_or_none {R : Type} (ps : list (prog W R)) (s : state W) :
  (∃ i p, ps !! i = Some p ∧ is_Some (thread_step p s))
  ∨ Forall (λ p, thread_step p s = None) ps.
Proof.
  induction ps as [|p ps IH]; [by right|].
  destruct (thread_step p s) as [r|] eqn:Hp.
  - left. exists 0, p. split; [done|]. rewrite Hp. by eexists.
  - destruct IH as [(i & q & Hq & Hs)|Hnone].
    + left. by exists (S i), q.
    + right. by constructor.
Qed.

Lemma owner_invariant_progress {R : Type} (m : machine W R) :
  owner_invariant m →
  Forall (λ p, finished p = true) (threads m) ∨ ∃ m', step m m'.
Proof.
  intros (Hs & Hall & Hown).
  assert (∀ i p, threads m !! i = Some p →
                 is_Some (thread_step p (shared_state m)) → ∃ m', step m m')
    as Hgo.
  { intros i p Hp [[p' s'] Hstep]. eexists. exists i.
    unfold sched_step. by rewrite Hp, Hstep. }
  destruct (some_thread_steps_or_none (threads m) (shared_state m))
    as [(i & p & Hp & Hstep)|Hnone]; [right; by eapply Hgo|].
  destruct (decide (Forall (λ p, finished p = true) (threads m)))
    as [|Hnot]; [by left|right].
  apply not_Forall_Exists in Hnot; [|apply _].
  apply Exists_exists in Hnot as (p & Hin & Hp).
  apply list_elem_of_lookup in Hin as [i Hi].
  pose proof (proj1 (Forall_lookup _ _) Hnone i p Hi) as Hstuck.
  destruct (stuck_thread p _ Hstuck) as [?|(id & k & -> & Hheld)]; [done|].
  destruct (Hown id Hheld) as (j & Hj & HHj & Hidj).
  destruct (Forall2_lookup_l _ _ _ _ _ Hall HHj) as (q & Hq & Ho).
  eapply (Hgo j q Hq). by eapply orderly_holder_steps.
Qed.

Lemma MountTask_orderly (v : Volume W) (task : Task W) (op : Operation) :
  orderly ∅ (MountTask v task op).
Proof.
  assert (∀ id : string, ({[id]} : gset string) ∖ {[id]} = ∅) as Hrel.
  { intros id. apply set_eq. intros x.
    rewrite elem_of_difference, elem_of_singleton, elem_of_empty. tauto. }
  assert (∀ (id : string) (r : outcome),
            orderly (W := W) {[id]} (Unlock id (Ret r))) as Hlast.
  { intros id r. apply orderly_unlock; [by apply elem_of_singleton|].
    rewrite Hrel. apply orderly_ret. }
  unfold MountTask, with_defers, MountTask_body.
  destruct (shared.ContainerGetParentAndSnapshotName (name v))
    as [[p sn] [|]]; simpl;
    apply orderly_lock, orderly_ext; intros [[|] [e|]]; simpl;
    try apply Hlast;
    (apply orderly_unlock; [by apply elem_of_singleton|]); rewrite Hrel;
    apply orderly_ext; intros o; simpl; try apply orderly_ret;
    apply orderly_lock, orderly_ext; intros ?; simpl; apply Hlast.
Qed.

(** X4: goroutines that run [MountTask], started with no lock of the
    registry held, never deadlock: [MountTask] takes a lock only when it
    holds none, so in every reachable state either every goroutine has
    returned or some goroutine can make a step. *)
Theorem MountTask_never_deadlocks
    (calls : list (Volume W * Task W * Operation)) (s0 : state W)
    (m : machine W outcome) :
  held s0 = ∅ →
  rtc step (Build_machine ((λ x, MountTask x.1.1 x.1.2 x.2) <$> calls) s0) m →
  Forall (λ p, finished p = true) (threads m) ∨ ∃ m', step m m'.
Proof.
  intros Hfree Hreach. apply owner_invariant_progress.
  eapply owner_invariant_rtc; [|exact Hreach].
  apply owner_invariant_init; [done|].
  apply Forall_fmap, Forall_forall. intros [[v task] op] _.
  apply MountTask_orderly.
Qed.

End drivers_more.

(** * Further properties of the pool resolver *)
Section string_more.
Import GoStrings.
(** With a one-byte separator, the text before the cut has no separator. *)
Lemma Cut_before_first_byte (s before after : string) (c : Ascii.ascii) :
  Cut s (String c "") = Some (before, after) →
  Contains before (String c "") = false.
Proof.
  unfold Contains. revert before.
  induction s as [|d s IH]; intros before; rewrite Cut_unfold; simpl; [done|].
  destruct (decide (c = d)) as [->|Hne].
  - destruct s; simpl; intros ?; simplify_eq; reflexivity.
  - destruct (Cut s (String c "")) as [[b a]|] eqn:Hc; [|done].
    intros ?; simplify_eq. rewrite Cut_unfold. simpl.
    rewrite decide_False by done.
    pose proof (IH b eq_refl) as Hb.
    by destruct (Cut b (String c "")) as [[??]|].
Qed.
End string_more.

Section storage_more.
Import storage.
Context {W : Type} `{!Env W}.

(** X5: the outcomes of the ID callback.  For a volume type without a
    catalog code it returns -1 with the conversion error and makes no
    catalog lookup.  Otherwise it makes one lookup and returns the volume
    ID with a nil error on success, and -1 with the catalog's error
    otherwise, except that the catalog's "no such object" becomes an error
    whose message names the project, the volume name and the volume type
    looked up.  The lookup is its only effect: the mock switch and the
    descriptors stay as they are. *)
Theorem volIDFunc_outcomes (state : State W) (poolID volTypeID : Z)
    (volType : drivers.VolumeType) (volName : string) (w : world W)
    (typeErr : option error) (volID : Z) (err : option error) (x : W) :
  VolumeTypeToDBType volType = (volTypeID, typeErr) →
  StoragePoolNodeVolumeGetTypeByProject (cluster state)
    (project_and_name volType volName).1 (project_and_name volType volName).2
    volTypeID poolID (ext w) = ((volID, err), x) →
  volIDFuncMake state poolID volType volName w
  = match typeErr with
    | Some e => Some (((-1)%Z, Some e), w)
    | None =>
        Some (match err with
              | None => (volID, None)
              | Some e =>
                  ((-1)%Z,
                   Some (if decide (e = ErrNoSuchObject)
                         then Errorf
                                ("Failed to get volume ID for project '"
                                 +:+ (project_and_name volType volName).1
                                 +:+ "', volume '"
                                 +:+ (project_and_name volType volName).2
                                 +:+ "', type '" +:+ volType
                                 +:+ "': Volume doesn't exist")
                         else e))
              end,
              Build_world (MockBackend w) (heap w) x
                (log w ++ [EvVolumeGet (project_and_name volType volName).1
                             (project_and_name volType volName).2
                             volTypeID poolID])%list)
    end.
Proof.
  intros Hty Hcat. unfold volIDFuncMake. rewrite Hty.
  destruct typeErr as [e|]; [reflexivity|].
  destruct (project_and_name volType volName) as [project name].
  unfold mbind, M_bind, outside. simpl in *. rewrite Hcat.
  destruct err as [e|]; [|done]. by destruct (decide (e = ErrNoSuchObject)).
Qed.

(** X6: decoding undoes encoding.  For a container or virtual-machine
    volume, the name [<project>_<volume>] of a project without an
    underscore is decoded into that project and that volume name, whatever
    underscores the volume name has. *)
Theorem project_and_name_decodes (volType : drivers.VolumeType)
    (project volName : string) :
  volType = drivers.VolumeTypeContainer ∨ volType = drivers.VolumeTypeVM →
  GoStrings.Contains project "_" = false →
  project_and_name volType (project +:+ "_" +:+ volName) = (project, volName).
Proof.
  intros Hty Hp. unfold project_and_name.
  rewrite SplitN_2, Cut_first_byte by done. simpl.
  destruct Hty as [-> | ->]; reflexivity.
Qed.

(** X7: decoding loses nothing.  Whatever the type and the name, the
    callback looks up either project "default" with the name as it is, or
    (for a container or virtual-machine volume only) a project without an
    underscore and a name that join, with one underscore, to the name it
    was given. *)
Theorem project_and_name_rejoins (volType : drivers.VolumeType)
    (volName project name : string) :
  project_and_name volType volName = (project, name) →
  (project = "default" ∧ name = volName)
  ∨ ((volType = drivers.VolumeTypeContainer ∨ volType = drivers.VolumeTypeVM)
     ∧ volName = project +:+ "_" +:+ name
     ∧ GoStrings.Contains project "_" = false).
Proof.
  unfold project_and_name. rewrite SplitN_2.
  destruct (bool_decide (volType = drivers.VolumeTypeContainer)
            || bool_decide (volType = drivers.VolumeTypeVM)) eqn:Hty.
  - apply orb_true_iff in Hty.
    assert (volType = drivers.VolumeTypeContainer
            ∨ volType = drivers.VolumeTypeVM) as Hty'.
    { destruct Hty as [?%bool_decide_eq_true|?%bool_decide_eq_true]; tauto. }
    destruct (GoStrings.Cut volName "_") as [[b a]|] eqn:Hc; simpl.
    + intros ?; simplify_eq. right. split; [done|]. split.
      * by apply Cut_Some.
      * by eapply Cut_before_first_byte.
    + intros ?; simplify_eq. by left.
  - intros ?; simplify_eq. by left.
Qed.

Lemma defaulted_config (d : StoragePool) : is_Some (Config (defaulted d)).
Proof. unfold defaulted. destruct (Config d) eqn:Hc; [by rewrite Hc|done]. Qed.

Lemma defaulted_name_driver (d : StoragePool) :
  Name (defaulted d) = Name d ∧ Driver (defaulted d) = Driver d.
Proof. unfold defaulted. by destruct (Config d). Qed.

(** What [CreatePool] does with a descriptor, step by step. *)
Lemma CreatePool_run (state : State W) (poolID : Z) (p : nat)
    (d : StoragePool) (op : drivers.Operation) (w : world W) :
  heap w !! p = Some d →
  CreatePool state poolID (Some p) op w
  = let h0 := match Config d with
              | None => <[p := with_empty_config d]> (heap w)
              | Some _ => heap w
              end in
    let logger := AddContext Log (Ctx (Driver d) (Name d)) in
    if MockBackend w then
      Some (Ok (MockPool (Build_mockBackend (Name d) state
                            (AddContext Log (Ctx "mock" (Name d))))),
            match Config d with
            | None => Build_world (MockBackend w) h0 (ext w) (log w)
            | Some _ => w
            end)
    else
      let '(loaded, x1) :=
        drivers_Load state (Driver d) (Name d) (Config (defaulted d)) logger
          (volIDFuncMake state poolID) (ext w) in
      match loaded with
      | Err e =>
          Some (Err e,
                Build_world (MockBackend w) h0 x1
                  (log w ++ [EvLoad (Driver d) (Name d) (Config (defaulted d))])%list)
      | Ok driver =>
          let pool := Build_lxdBackend driver poolID (Name d) state logger in
          let '(created, (h, x2)) := lxdBackend_create pool p op (h0, x1) in
          Some (match created with
                | Some e => Err e
                | None => Ok (LxdPool pool)
                end,
                Build_world (MockBackend w) h x2
                  ((log w ++ [EvLoad (Driver d) (Name d) (Config (defaulted d))])
                     ++ [EvCreate (Name d)])%list)
      end.
Proof.
  intros Hp. unfold CreatePool, mbind, M_bind, load_descriptor, get_MockBackend,
    outside, call_create, defaulted.
  rewrite Hp. destruct (Config d) as [c|] eqn:Hc; simpl.
  - destruct (MockBackend w) eqn:Hmock; simpl; rewrite Hp; [reflexivity|].
    simpl. rewrite Hc, Hmock.
    destruct (drivers_Load _ _ _ _ _ _ _) as [[driver|e] x1]; [|reflexivity].
    simpl. destruct (lxdBackend_create _ _ _ _) as [created [h x2]].
    destruct created; reflexivity.
  - destruct (MockBackend w) eqn:Hmock; simpl; rewrite lookup_insert_eq;
      [reflexivity|].
    simpl.
    destruct (drivers_Load _ _ _ _ _ _ _) as [[driver|e] x1]; [|reflexivity].
    simpl. destruct (lxdBackend_create _ _ _ _) as [created [h x2]].
    destruct created; reflexivity.
Qed.

(** What [GetPoolByName] does, step by step. *)
Lemma GetPoolByName_run (state : State W) (name : string) (w : world W) :
  GetPoolByName state name w
  = if MockBackend w then
      Some (Ok (MockPool (Build_mockBackend name state
                            (AddContext Log (Ctx "mock" name)))), w)
    else
      let '(got, x1) := StoragePoolGet (cluster state) name (ext w) in
      match got with
      | Err e =>
          Some (Err e,
                Build_world (MockBackend w) (heap w) x1
                  (log w ++ [EvStoragePoolGet name])%list)
      | Ok (poolID, dbPool) =>
          let logger := AddContext Log (Ctx (Driver dbPool) (Name dbPool)) in
          let '(loaded, x2) :=
            drivers_Load state (Driver dbPool) (Name dbPool)
              (Config (defaulted dbPool)) logger
              (volIDFuncMake state poolID) x1 in
          Some (match loaded with
                | Err e => Err e
                | Ok driver =>
                    Ok (LxdPool (Build_lxdBackend driver poolID (Name dbPool)
                                   state logger))
                end,
                Build_world (MockBackend w) (heap w) x2
                  ((log w ++ [EvStoragePoolGet name])
                     ++ [EvLoad (Driver dbPool) (Name dbPool)
                           (Config (defaulted dbPool))])%list)
      end.
Proof.
  unfold GetPoolByName, mbind, M_bind, get_MockBackend, outside, defaulted.
  destruct (MockBackend w) eqn:Hmock; [reflexivity|]. simpl. rewrite ?Hmock.
  destruct (StoragePoolGet _ _ _) as [[[poolID dbPool]|e] x1]; [|reflexivity].
  simpl. destruct (Config dbPool) as [c|] eqn:Hc; simpl; rewrite ?Hc;
    destruct (drivers_Load _ _ _ _ _ _ _) as [[driver|e] x2]; reflexivity.
Qed.

(** X8: given a descriptor that has a config map, [CreatePool] in real
    mode leaves the descriptor as it is and loads the driver with that
    very map; if the load fails its error is returned and the pool's
    [create] is not called; otherwise [create] runs once, on the caller's
    unchanged descriptors, and its error, if any, is returned with no
    further call. *)
Theorem CreatePool_present_config (state : State W) (poolID : Z) (p : nat)
    (d : StoragePool) (c : gmap string string) (op : drivers.Operation)
    (w : world W) (loaded : result (drivers.Driver W)) (x1 : W) :
  MockBackend w = false →
  heap w !! p = Some d →
  Config d = Some c →
  drivers_Load state (Driver d) (Name d) (Some c)
      (AddContext Log (Ctx (Driver d) (Name d)))
      (volIDFuncMake state poolID) (ext w) = (loaded, x1) →
  match loaded with
  | Err e =>
      CreatePool state poolID (Some p) op w
      = Some (Err e,
              Build_world false (heap w) x1
                (log w ++ [EvLoad (Driver d) (Name d) (Some c)])%list)
  | Ok driver =>
      ∀ (created : option error) (h : gmap nat StoragePool) (x2 : W),
        lxdBackend_create
          (Build_lxdBackend driver poolID (Name d) state
             (AddContext Log (Ctx (Driver d) (Name d))))
          p op (heap w, x1) = (created, (h, x2)) →
        CreatePool state poolID (Some p) op w
        = Some (match created with
                | Some e => Err e
                | None =>
                    Ok (LxdPool
                          (Build_lxdBackend driver poolID (Name d) state
                             (AddContext Log (Ctx (Driver d) (Name d)))))
                end,
                Build_world false h x2
                  ((log w ++ [EvLoad (Driver d) (Name d) (Some c)])
                     ++ [EvCreate (Name d)])%list)
  end.
Proof.
  intros Hmock Hp Hc Hload. rewrite (CreatePool_run state poolID p d op w Hp).
  cbv zeta. unfold defaulted. rewrite Hc, Hmock. simpl. rewrite Hc, Hload.
  destruct loaded as [driver|e]; [|done].
  intros created h x2 Hcreate. by rewrite Hcreate.
Qed.

Lemma loads_carry_config_nil : loads_carry_config [].
Proof. intros dn pn cfg Hin. by apply elem_of_nil in Hin. Qed.

Lemma loads_carry_config_cons (ev : event) (evs : list event) :
  (∀ dn pn cfg, ev = EvLoad dn pn cfg → is_Some cfg) →
  loads_carry_config evs → loads_carry_config (ev :: evs).
Proof.
  intros Hev Hevs dn pn cfg [Heq|Hin]%elem_of_cons.
  - by apply (Hev dn pn cfg).
  - by apply (Hevs dn pn cfg).
Qed.

Lemma no_create_nil : no_create [].
Proof. intros pn Hin. by apply elem_of_nil in Hin. Qed.

Lemma no_create_cons (ev : event) (evs : list event) :
  (∀ pn, ev ≠ EvCreate pn) → no_create evs → no_create (ev :: evs).
Proof.
  intros Hev Hevs pn [Heq|Hin]%elem_of_cons.
  - by apply (Hev pn).
  - by apply (Hevs pn).
Qed.

Lemma GetPoolByName_frame (state : State W) (name : string) (w : world W) :
  ∃ (r : result (Pool W)) (w' : world W) (new : list event),
    GetPoolByName state name w = Some (r, w')
    ∧ log w' = (log w ++ new)%list
    ∧ heap w' = heap w
    ∧ MockBackend w' = MockBackend w
    ∧ no_create new
    ∧ loads_carry_config new.
Proof.
  rewrite GetPoolByName_run. destruct (MockBackend w) eqn:Hmock.
  { eexists _, _, []. rewrite app_nil_r.
    repeat (split; [done|]). split; [apply no_create_nil|].
    apply loads_carry_config_nil. }
  destruct (StoragePoolGet _ _ _) as [[[poolID dbPool]|e] x1].
  - cbv zeta. destruct (drivers_Load _ _ _ _ _ _ _) as [loaded x2].
    eexists _, _, [_; _]. split; [reflexivity|]. simpl.
    rewrite <- (assoc_L (++)). repeat (split; [done|]). split.
    + repeat (apply no_create_cons; [done|]). apply no_create_nil.
    + apply loads_carry_config_cons; [done|].
      apply loads_carry_config_cons; [|apply loads_carry_config_nil].
      intros dn pn cfg ?; simplify_eq. apply defaulted_config.
  - eexists _, _, [_]. split; [reflexivity|]. simpl.
    repeat (split; [done|]). split.
    + apply no_create_cons; [done|]. apply no_create_nil.
    + apply loads_carry_config_cons; [done|]. apply loads_carry_config_nil.
Qed.

(** X9: looking a pool up changes nothing the caller owns.  Whatever
    the inputs and the mock switch, [GetPoolByName] and
    [GetPoolByInstanceName] return, having only added outside calls to the
    record: the descriptors and the mock switch are as before, no pool is
    created, and a driver is never loaded with a nil config map. *)
Theorem GetPool_reads_only (state : State W)
    (name projectName instanceName : string) (w : world W) :
  (∃ (r : result (Pool W)) (w' : world W) (new : list event),
     GetPoolByName state name w = Some (r, w')
     ∧ log w' = (log w ++ new)%list
     ∧ heap w' = heap w
     ∧ MockBackend w' = MockBackend w
     ∧ no_create new
     ∧ loads_carry_config new)
  ∧ (∃ (r : result (Pool W)) (w' : world W) (new : list event),
       GetPoolByInstanceName state projectName instanceName w = Some (r, w')
       ∧ log w' = (log w ++ EvContainerPool projectName instanceName :: new)%list
       ∧ heap w' = heap w
       ∧ MockBackend w' = MockBackend w
       ∧ no_create new
       ∧ loads_carry_config new).
Proof.
  split; [apply GetPoolByName_frame|].
  unfold GetPoolByInstanceName, mbind, M_bind, outside.
  destruct (ContainerPool _ _ _ _) as [[poolName [e|]] x]; simpl.
  - eexists _, _, []. repeat (split; [done|]).
    split; [apply no_create_nil|apply loads_carry_config_nil].
  - destruct (GetPoolByName_frame state poolName
                (Build_world (MockBackend w) (heap w) x
                   (log w ++ [EvContainerPool projectName instanceName])))
      as (r & w' & new & -> & Hlog & Hheap & Hmock & Hnc & Hlc).
    simpl in *. eexists _, _, new. split; [done|].
    rewrite Hlog, <- (assoc_L (++)). by repeat (split; [done|]).
Qed.


(** X11: [GetPoolByName] in real mode.  If the catalog does not yield
    the pool, its error is returned and no driver is loaded.  Otherwise
    the driver named by the catalog's descriptor is loaded once, with the
    descriptor's name and config (the empty map for a nil one) and with the
    ID callback bound to the catalog's pool ID; a load error is returned
    as it is, and the pool returned on success carries that driver, the
    catalog's pool ID and the descriptor's name. *)
Theorem GetPoolByName_real (state : State W) (name : string) (w : world W)
    (got : result (Z * StoragePool)) (x1 : W) :
  MockBackend w = false →
  StoragePoolGet (cluster state) name (ext w) = (got, x1) →
  match got with
  | Err e =>
      GetPoolByName state name w
      = Some (Err e,
              Build_world false (heap w) x1
                (log w ++ [EvStoragePoolGet name])%list)
  | Ok (poolID, dbPool) =>
      ∀ (loaded : result (drivers.Driver W)) (x2 : W),
        drivers_Load state (Driver dbPool) (Name dbPool)
          (Some (default ∅ (Config dbPool)))
          (AddContext Log (Ctx (Driver dbPool) (Name dbPool)))
          (volIDFuncMake state poolID) x1 = (loaded, x2) →
        GetPoolByName state name w
        = Some (match loaded with
                | Err e => Err e
                | Ok driver =>
                    Ok (LxdPool
                          (Build_lxdBackend driver poolID (Name dbPool) state
                             (AddContext Log
                                (Ctx (Driver dbPool) (Name dbPool)))))
                end,
                Build_world false (heap w) x2
                  ((log w ++ [EvStoragePoolGet name])
                     ++ [EvLoad (Driver dbPool) (Name dbPool)
                           (Some (default ∅ (Config dbPool)))])%list)
  end.
Proof.
  intros Hmock Hget. rewrite GetPoolByName_run, Hmock, Hget. cbv zeta.
  destruct got as [[poolID dbPool]|e]; [|done].
  intros loaded x2 Hload.
  assert (Config (defaulted dbPool) = Some (default ∅ (Config dbPool))) as ->
    by (unfold defaulted; by destruct (Config dbPool) eqn:Hc; rewrite ?Hc).
  by rewrite Hload.
Qed.

End storage_more.

(** * The further properties on the small world *)
Section drivers_more_examples.
Import drivers.

Lemma Snapshots_of_parent_witness :
  run (Snapshots (demo_volume counting_driver VolumeTypeContainer "c1") None)
    demo_state
  = Some (Ok [demo_volume counting_driver VolumeTypeContainer "c1/snap0";
              demo_volume counting_driver VolumeTypeContainer "c1/snap1"],
          Build_state {| holders := 0; dirs := ∅ |} ∅
            [(CVolumeSnapshots "containers" "c1" None,
              RNames (["snap0"; "snap1"], None))]).
Proof.
  apply (Snapshots_of_parent
    (demo_volume counting_driver VolumeTypeContainer "c1") None demo_state
    ["snap0"; "snap1"] None {| holders := 0; dirs := ∅ |}).
  - reflexivity.
  - reflexivity.
Defined.

Lemma MountTask_task_runs_unlocked_witness :
  ∃ m1 m3 : machine demo_world outcome,
    run_schedule [0]
      (Build_machine
         [MountTask (demo_volume counting_driver VolumeTypeContainer "c1")
            task_ok None] demo_state) = Some m1
    ∧ next_calls m1 = [Some (CMountVolume "containers" "c1" None)]
    ∧ held (shared_state m1) = {[ "mount/containers/c1" ]} ∪ ∅
    ∧ run_schedule [0; 0; 0]
        (Build_machine
           [MountTask (demo_volume counting_driver VolumeTypeContainer "c1")
              task_ok None] demo_state) = Some m3
    ∧ next_calls m3 = [Some (CTask "/pools/default/containers/c1" None)]
    ∧ held (shared_state m3) = ∅
    ∧ ext (shared_state m3) = {| holders := 1; dirs := ∅ |}.
Proof.
  exact (MountTask_task_runs_unlocked
    (demo_volume counting_driver VolumeTypeContainer "c1") task_ok None
    demo_state true {| holders := 1; dirs := ∅ |}
    (not_elem_of_empty _) eq_refl).
Defined.

Lemma lock_ids_tell_volumes_apart_witness :
  (mountLockID (demo_volume counting_driver VolumeTypeContainer "c1")
   = mountLockID (demo_volume counting_driver VolumeTypeCustom "c1") →
   VolumeTypeContainer = VolumeTypeCustom ∧ "c1" = "c1")
  ∧ (umountLockID (demo_volume counting_driver VolumeTypeContainer "c1")
     = umountLockID (demo_volume counting_driver VolumeTypeCustom "c1") →
     VolumeTypeContainer = VolumeTypeCustom ∧ "c1" = "c1")
  ∧ mountLockID (demo_volume counting_driver VolumeTypeContainer "c1")
    ≠ umountLockID (demo_volume counting_driver VolumeTypeCustom "c1").
Proof.
  apply (lock_ids_tell_volumes_apart
    (demo_volume counting_driver VolumeTypeContainer "c1")
    (demo_volume counting_driver VolumeTypeCustom "c1")).
  - right. right. left. reflexivity.
  - right. left. reflexivity.
Defined.

Lemma MountTask_never_deadlocks_witness :
  Forall (λ p, finished p = true) (threads demo_machine)
  ∨ ∃ m', step demo_machine m'.
Proof.
  apply (MountTask_never_deadlocks demo_calls demo_state demo_machine).
  - reflexivity.
  - apply rtc_refl.
Defined.

End drivers_more_examples.

Section storage_more_examples.
Import storage.

Lemma volIDFunc_outcomes_witness :
  volIDFuncMake demo_State 1 drivers.VolumeTypeContainer "proj1_myvol"
    (demo_world_with false)
  = Some (((-1)%Z,
           Some (Errorf "Failed to get volume ID for project 'proj1', volume 'myvol', type 'containers': Volume doesn't exist")),
          Build_world false
            {[ 0 := {| Name := "default"; Driver := "dir"; Config := None |} ]}
            {| drivers.holders := 0; drivers.dirs := ∅ |}
            [EvVolumeGet "proj1" "myvol" 0 1]).
Proof.
  apply (volIDFunc_outcomes demo_State 1 0 drivers.VolumeTypeContainer
           "proj1_myvol" (demo_world_with false) None (-1)
           (Some ErrNoSuchObject)
           {| drivers.holders := 0; drivers.dirs := ∅ |}).
  - reflexivity.
  - reflexivity.
Defined.

Lemma project_and_name_decodes_witness :
  project_and_name drivers.VolumeTypeVM
    ("proj1" +:+ "_" +:+ "my_vol")
  = ("proj1", "my_vol").
Proof.
  apply (project_and_name_decodes drivers.VolumeTypeVM "proj1" "my_vol").
  - right. reflexivity.
  - reflexivity.
Defined.

Lemma project_and_name_rejoins_witness :
  ("a" = "default" ∧ "b_c" = "a_b_c")
  ∨ ((drivers.VolumeTypeContainer = drivers.VolumeTypeContainer
      ∨ drivers.VolumeTypeContainer = drivers.VolumeTypeVM)
     ∧ "a_b_c" = "a" +:+ "_" +:+ "b_c"
     ∧ GoStrings.Contains "a" "_" = false).
Proof.
  apply (project_and_name_rejoins drivers.VolumeTypeContainer "a_b_c" "a" "b_c").
  reflexivity.
Defined.

Lemma CreatePool_present_config_witness :
  CreatePool demo_State 1 (Some 0) None demo_world_configured
  = Some (Ok (LxdPool (Build_lxdBackend drivers.counting_driver 1 "default"
                         demo_State (AddContext Log (Ctx "dir" "default")))),
          Build_world false
            {[ 0 := {| Name := "default"; Driver := "dir";
                       Config := Some {[ "size" := "1GB" ]} |} ]}
            {| drivers.holders := 0; drivers.dirs := ∅ |}
            [EvLoad "dir" "default" (Some {[ "size" := "1GB" ]});
             EvCreate "default"]).
Proof.
  pose proof (CreatePool_present_config demo_State 1 0
    {| Name := "default"; Driver := "dir";
       Config := Some {[ "size" := "1GB" ]} |}
    {[ "size" := "1GB" ]} None demo_world_configured
    (Ok drivers.counting_driver)
    {| drivers.holders := 0; drivers.dirs := ∅ |}) as Hrun.
  simpl in Hrun.
  specialize (Hrun eq_refl eq_refl eq_refl eq_refl None _ _ eq_refl).
  exact Hrun.
Defined.


Lemma GetPoolByName_real_witness :
  GetPoolByName demo_State "default" (demo_world_with false)
  = Some (Ok (LxdPool (Build_lxdBackend drivers.counting_driver 1 "default"
                         demo_State (AddContext Log (Ctx "dir" "default")))),
          Build_world false
            {[ 0 := {| Name := "default"; Driver := "dir"; Config := None |} ]}
            {| drivers.holders := 0; drivers.dirs := ∅ |}
            [EvStoragePoolGet "default"; EvLoad "dir" "default" (Some ∅)]).
Proof.
  pose proof (GetPoolByName_real demo_State "default" (demo_world_with false)
    (Ok (1%Z, {| Name := "default"; Driver := "dir"; Config := None |}))
    {| drivers.holders := 0; drivers.dirs := ∅ |}) as Hrun.
  simpl in Hrun.
  specialize (Hrun eq_refl eq_refl (Ok drivers.counting_driver) _ eq_refl).
  exact Hrun.
Defined.

End storage_more_examples.
